(** * Chatty: the client-side synchronisation code

    A shallow embedding of the cache-patching code of the Chatty client:
    - [client/src/navigation.js]: [isDuplicateDocument] and the two
      [subscribeToMore] reducers ([messageAdded], [groupAdded]);
    - [client/src/screens/messages.screen.js] (step 4.10 / 4.11):
      [isDuplicateMessage], the [optimisticResponse] and the [update]
      function of [createMessage];
    - [client/src/screens/finalize-group.screen.js] and
      [group-details.screen.js]: the [update] functions of [createGroup],
      [deleteGroup], [leaveGroup], and [FinalizeGroup.create];
    - [client/src/app.js]: the batch middleware, the batch afterware and
      the [connectionParams] of the websocket client.

    JavaScript values are modelled as follows.  An entity [id] is a number
    or [null]: [option Z], with [None] for [null].  Arrays are lists.  The
    Apollo store is a pair of finite maps from query variables to cached
    result trees.  A function that can throw returns a [completion]. *)

From stdpp Require Import gmap strings list fin_maps.
From Stdlib Require Import ZArith Lia.

Local Open Scope Z_scope.

(** ** JavaScript values *)

(** [a === b] on values that are numbers or [null]. *)
Definition strict_eq (a b : option Z) : bool := bool_decide (a = b).

(** [x !== null] *)
Definition not_null (x : option Z) : bool :=
  match x with Some _ => true | None => false end.

(** The outcome of running a piece of JavaScript: a value, or an exception. *)
Inductive JsError : Type :=
  | TypeError      (* property access on [undefined] *)
  | MissingQuery.  (* [store.readQuery] on a result that is not cached *)

Inductive completion (A : Type) : Type :=
  | Returned (a : A)
  | Thrown (e : JsError).
Arguments Returned {A} a.
Arguments Thrown {A} e.

(** [array.indexOf(x)]: the first index holding a value [=== x], else [-1]. *)
Fixpoint indexOf_from (i : Z) (l : list (option Z)) (x : option Z) : Z :=
  match l with
  | [] => -1
  | y :: l' => if strict_eq y x then i else indexOf_from (i + 1) l' x
  end.

Definition indexOf (l : list (option Z)) (x : option Z) : Z :=
  indexOf_from 0 l x.

(** [array[i]] for an integer [i]: [undefined] (here [None]) out of range,
    negative indices included. *)
Definition js_get {A : Type} (l : list A) (i : Z) : option A :=
  if i <? 0 then None else l !! Z.to_nat i.

(** ** Data model *)

Record UserRef : Type := mkUserRef {
  ref_id : option Z;
  ref_username : string;
}.

(** [to] is the group the message was sent to; only its [id] is read. *)
Record Message : Type := mkMessage {
  msg_id : option Z;
  msg_text : string;
  msg_createdAt : string;
  msg_from : UserRef;
  msg_to : option Z;
}.

Record Group : Type := mkGroup {
  grp_id : option Z;
  grp_name : string;
  grp_messages : list Message;
}.

Record User : Type := mkUser {
  usr_id : option Z;
  usr_email : string;
  usr_groups : list Group;
}.

(** The result trees of [USER_QUERY] and [GROUP_QUERY]. *)
Record UserResult : Type := mkUserResult { user : User }.
Record GroupResult : Type := mkGroupResult { group : Group }.

#[global] Instance UserRef_eq_dec : EqDecision UserRef.
Proof. solve_decision. Defined.
#[global] Instance Message_eq_dec : EqDecision Message.
Proof. solve_decision. Defined.
#[global] Instance Group_eq_dec : EqDecision Group.
Proof. solve_decision. Defined.
#[global] Instance User_eq_dec : EqDecision User.
Proof. solve_decision. Defined.
#[global] Instance UserResult_eq_dec : EqDecision UserResult.
Proof. solve_decision. Defined.
#[global] Instance GroupResult_eq_dec : EqDecision GroupResult.
Proof. solve_decision. Defined.

(** Anything with an [id] property: what the duplicate checks read. *)
Class Document (A : Type) := doc_id : A → option Z.
#[global] Instance Message_document : Document Message := msg_id.
#[global] Instance Group_document : Document Group := grp_id.

(** [lodash.map(docs, 'id')] *)
Definition ids {A : Type} `{Document A} (docs : list A) : list (option Z) :=
  doc_id <$> docs.

(** ** Duplicate checks *)

(** navigation.js:
    [newDocument.id !== null &&
       existingDocuments.some(doc => newDocument.id === doc.id)] *)
Definition isDuplicateDocument {A : Type} `{Document A}
    (newDocument : A) (existingDocuments : list A) : bool :=
  not_null (doc_id newDocument) &&
  existsb (λ doc, strict_eq (doc_id newDocument) (doc_id doc)) existingDocuments.

(** messages.screen.js *)
Definition isDuplicateMessage (newMessage : Message)
    (existingMessages : list Message) : bool :=
  not_null (msg_id newMessage) &&
  existsb (λ message, strict_eq (msg_id newMessage) (msg_id message))
          existingMessages.

(** finalize-group.screen.js *)
Definition isDuplicateGroup (newGroup : Group) (existingGroups : list Group) : bool :=
  not_null (grp_id newGroup) &&
  existsb (λ group, strict_eq (grp_id newGroup) (grp_id group)) existingGroups.

(** ** Subscription reducers (navigation.js) *)

Definition set_messages (g : Group) (ms : list Message) : Group :=
  {| grp_id := grp_id g; grp_name := grp_name g; grp_messages := ms |}.

Definition set_groups (r : UserResult) (gs : list Group) : UserResult :=
  {| user := {| usr_id := usr_id (user r); usr_email := usr_email (user r);
                usr_groups := gs |} |}.

Definition set_group_messages (r : GroupResult) (ms : list Message) : GroupResult :=
  {| group := set_messages (group r) ms |}.

(** [updateQuery] of [subscribeToMessages].  [previousGroups[groupIndex]]
    is [undefined] when the index is [-1], and reading [.messages] from it
    throws.  Past that point the index is in range, and
    [update(previousResult, {user: {groups: {[groupIndex]:
       {messages: {$set: [newMessage]}}}}})]
    replaces the [messages] of that one group. *)
Definition messageAdded_updateQuery (previousResult : UserResult)
    (newMessage : Message) : completion UserResult :=
  let previousGroups := usr_groups (user previousResult) in
  let groupIndex := indexOf (ids previousGroups) (msg_to newMessage) in
  match js_get previousGroups groupIndex with
  | None => Thrown TypeError
  | Some target =>
      if isDuplicateDocument newMessage (grp_messages target)
      then Returned previousResult
      else Returned (set_groups previousResult
             (<[Z.to_nat groupIndex := set_messages target [newMessage]]>
                previousGroups))
  end.

(** [updateQuery] of [subscribeToGroups]:
    [update(previousResult, {user: {groups: {$push: [newGroup]}}})]. *)
Definition groupAdded_updateQuery (previousResult : UserResult)
    (newGroup : Group) : UserResult :=
  let previousGroups := usr_groups (user previousResult) in
  if isDuplicateDocument newGroup previousGroups
  then previousResult
  else set_groups previousResult (previousGroups ++ [newGroup]).

(** ** The Apollo store, as the [update] functions see it *)

(** Modelled from the spec: the Result Cache, the [store] that apollo-client
    hands to an [update] function; it is not part of the sources.  It keeps
    the last result tree of each (query, variables) pair.
    [store.readQuery({query, variables})] gives a copy of the cached tree,
    and the [update] function cannot go on when nothing is cached;
    [store.writeQuery({query, variables, data})] replaces the tree.  The
    copy is local to the [update] function: what [unshift], [push] and the
    assignment to [data.user.groups] change reaches the store only through
    [writeQuery]. *)
Record Store : Type := mkStore {
  groupQuery : gmap Z GroupResult;   (* GROUP_QUERY, keyed by [groupId] *)
  userQuery : gmap Z UserResult;     (* USER_QUERY, keyed by [id] *)
}.

(** Store-passing computations that may throw.  The store that comes out
    with an exception is the store at the point of the [throw]. *)
Definition M (A : Type) : Type := Store → completion A * Store.

#[global] Instance M_ret : MRet M := λ A a s, (Returned a, s).

#[global] Instance M_bind : MBind M := λ A B f m s,
  match m s with
  | (Returned a, s') => f a s'
  | (Thrown e, s') => (Thrown e, s')
  end.

Definition throw {A : Type} (e : JsError) : M A := λ s, (Thrown e, s).

(** The store left by a computation, whatever its outcome. *)
Definition exec {A : Type} (m : M A) (s : Store) : Store := (m s).2.

Definition readQuery_GROUP (groupId : Z) : M GroupResult := λ s,
  match groupQuery s !! groupId with
  | Some data => (Returned data, s)
  | None => (Thrown MissingQuery, s)
  end.

Definition writeQuery_GROUP (groupId : Z) (data : GroupResult) : M unit := λ s,
  (Returned (), {| groupQuery := <[groupId := data]> (groupQuery s);
                   userQuery := userQuery s |}).

Definition readQuery_USER (id : Z) : M UserResult := λ s,
  match userQuery s !! id with
  | Some data => (Returned data, s)
  | None => (Thrown MissingQuery, s)
  end.

Definition writeQuery_USER (id : Z) (data : UserResult) : M unit := λ s,
  (Returned (), {| groupQuery := groupQuery s;
                   userQuery := <[id := data]> (userQuery s) |}).

(** ** Mutation [update] functions *)

(** messages.screen.js, step 4.11: the [optimisticResponse] of
    [createMessage]; [now] stands for [new Date().toISOString()]. *)
Definition optimisticResponse (text : string) (groupId : Z) (now : string) : Message :=
  {| msg_id := Some (-1);
     msg_text := text;
     msg_createdAt := now;
     msg_from := {| ref_id := Some 1; ref_username := "Justyn.Kautzer" |};
     msg_to := Some groupId |}.

(** messages.screen.js, step 4.10: [update] of [createMessage].  It returns
    [data] on a duplicate and [undefined] ([None]) after a write. *)
Definition createMessage_update (groupId : Z) (createMessage : Message)
    : M (option GroupResult) :=
  data ← readQuery_GROUP groupId;
  if isDuplicateMessage createMessage (grp_messages (group data))
  then mret (Some data)
  else
    (* data.group.messages.unshift(createMessage) *)
    let data := set_group_messages data
                  (createMessage :: grp_messages (group data)) in
    writeQuery_GROUP groupId data ≫= λ _, mret None.

(** finalize-group.screen.js: [update] of [createGroup]. *)
Definition createGroup_update (userId : Z) (createGroup : Group) : M unit :=
  data ← readQuery_USER userId;
  if isDuplicateGroup createGroup (usr_groups (user data))
  then mret ()
  else
    (* data.user.groups.push(createGroup) *)
    let data := set_groups data (usr_groups (user data) ++ [createGroup]) in
    writeQuery_USER userId data.

(** group-details.screen.js: [update] of [deleteGroup] and of [leaveGroup];
    both read and write [USER_QUERY] with [{ id: 1 }] and keep the groups
    [g] with [removed.id !== g.id]. *)
Definition removeGroup_update (removed_id : option Z) : M unit :=
  data ← readQuery_USER 1;
  let data := set_groups data
                (filter (λ g, strict_eq removed_id (grp_id g) = false)
                        (usr_groups (user data))) in
  writeQuery_USER 1 data.

Definition deleteGroup_update := removeGroup_update.
Definition leaveGroup_update := removeGroup_update.

(** Modelled from the spec: the call of a subscription reducer by
    apollo-client's [subscribeToMore], which is not part of the sources.
    In navigation.js the subscriptions hang off [USER_QUERY] with
    [{ id: 1 }]; an event rewrites that cached result with what the reducer
    returns.  Nothing is written when the result is not cached or the
    reducer throws. *)
Definition apply_updateQuery (reducer : UserResult → completion UserResult)
    (s : Store) : Store :=
  match userQuery s !! 1 with
  | None => s
  | Some previousResult =>
      match reducer previousResult with
      | Returned r => exec (writeQuery_USER 1 r) s
      | Thrown _ => s
      end
  end.

(** Everything that patches the cache. *)
Inductive CacheEvent : Type :=
  | CreateMessagePatch (groupId : Z) (createMessage : Message)
  | CreateGroupPatch (userId : Z) (createGroup : Group)
  | DeleteGroupPatch (id : option Z)
  | LeaveGroupPatch (id : option Z)
  | MessageAdded (newMessage : Message)
  | GroupAdded (newGroup : Group).

Definition step (s : Store) (ev : CacheEvent) : Store :=
  match ev with
  | CreateMessagePatch groupId m => exec (createMessage_update groupId m) s
  | CreateGroupPatch userId g => exec (createGroup_update userId g) s
  | DeleteGroupPatch i => exec (deleteGroup_update i) s
  | LeaveGroupPatch i => exec (leaveGroup_update i) s
  | MessageAdded m => apply_updateQuery (λ prev, messageAdded_updateQuery prev m) s
  | GroupAdded g => apply_updateQuery (λ prev, Returned (groupAdded_updateQuery prev g)) s
  end.

Definition run (evs : list CacheEvent) (s : Store) : Store := foldl step s evs.

(** ** The mutation engine *)

(** Modelled from the spec: the Mutation Reconciliation Engine, the
    [mutate] that the screens call with [variables], an optional
    [optimisticResponse] and an [update] function.  It belongs to
    apollo-client and is not part of the sources.  Following the spec, a
    speculative result is applied to the cache at once and tagged as
    speculative: it is kept as a pending entry on top of the authoritative
    store [base], and what the screens read is [view].  On success the
    speculative effect is replaced by the authoritative one, obtained by
    running the patch function against the real response; on failure the
    speculative write is reverted and the error goes back to the caller.
    Subscription events write to [base]. *)
Module Engine.
Section Engine.
Context {S R E : Type}.

(** One [mutate(request, { speculativeResult?, patch })] in flight. *)
Record Pending : Type := mkPending {
  handle : nat;
  patch : S → R → S;
  speculativeResult : option R;
}.

Record t : Type := mk {
  base : S;
  pending : list Pending;
}.

Definition speculate (s : S) (p : Pending) : S :=
  match speculativeResult p with
  | Some r => patch p s r
  | None => s
  end.

Definition view (e : t) : S := foldl speculate (base e) (pending e).

Definition mutate (p : Pending) (e : t) : t :=
  {| base := base e; pending := pending e ++ [p] |}.

Definition settle (k : nat) (ps : list Pending) : list Pending :=
  filter (λ p, handle p ≠ k) ps.

(** What the caller's promise settles to. *)
Inductive settled : Type :=
  | Resolved (r : R)
  | Rejected (err : E).

Definition find_pending (k : nat) (ps : list Pending) : option Pending :=
  head (filter (λ p, handle p = k) ps).

(** The response to request [k]: [inl] the authoritative result, [inr]
    an error.  A response to a request that is not pending does nothing. *)
Definition respond (k : nat) (o : R + E) (e : t) : t * option settled :=
  match find_pending k (pending e) with
  | None => (e, None)
  | Some p =>
      match o with
      | inl r => ({| base := patch p (base e) r;
                     pending := settle k (pending e) |}, Some (Resolved r))
      | inr err => ({| base := base e;
                       pending := settle k (pending e) |}, Some (Rejected err))
      end
  end.

(** A subscription event, as a rewrite of the authoritative store. *)
Definition push (f : S → S) (e : t) : t :=
  {| base := f (base e); pending := pending e |}.

(** The requests that still back a speculative entry. *)
Definition handles (e : t) : list nat := map handle (pending e).
End Engine.
Arguments Pending : clear implicits.
Arguments t : clear implicits.
Arguments settled : clear implicits.
End Engine.

(** [props.createMessage({ text, userId, groupId })] of messages.screen.js:
    the request handed to [mutate]. *)
Definition createMessage_request (k : nat) (text : string) (groupId : Z)
    (now : string) : Engine.Pending Store Message :=
  {| Engine.handle := k;
     Engine.patch := λ s createMessage,
        exec (createMessage_update groupId createMessage) s;
     Engine.speculativeResult := Some (optimisticResponse text groupId now) |}.

(** What a screen does once its mutation settled. *)
Inductive UiEffect : Type :=
  | NavigationDispatch_goToNewGroup (createGroup : Group)
  | Alert_alert (title message : string).

(** finalize-group.screen.js, [create]:
    [createGroup(...).then(res => navigation.dispatch(goToNewGroup(res.data.createGroup)))
                     .catch(error => Alert.alert('Error Creating New Group', error.message, ...))] *)
Definition FinalizeGroup_create (settlement : Engine.settled Group string) : UiEffect :=
  match settlement with
  | Engine.Resolved createGroup => NavigationDispatch_goToNewGroup createGroup
  | Engine.Rejected message => Alert_alert "Error Creating New Group" message
  end.

(** ** app.js: the transports *)

(** [store.getState()], as far as app.js reads it: [auth.jwt] is a string,
    or absent ([None]) when signed out. *)
Record AuthState : Type := mkAuthState { jwt : option string }.
Record ReduxState : Type := mkReduxState { auth : AuthState }.

(** [if (jwt)]: absent and the empty string are falsy. *)
Definition truthy (v : option string) : bool :=
  match v with
  | Some s => negb (String.eqb s "")
  | None => false
  end.

(** `Bearer ${jwt}` for a string [jwt]. *)
Definition bearer (jwt : string) : string := "Bearer " +:+ jwt.

(** The [req] of a batch middleware: the operations of the batch and
    [req.options.headers], which may be missing. *)
Record BatchRequest : Type := mkBatchRequest {
  requests : list string;
  options_headers : option (gmap string string);
}.

(** [applyBatchMiddleware(req, next)]: the request as it is when [next()]
    is called, which is on every path. *)
Definition applyBatchMiddleware (state : ReduxState) (req : BatchRequest)
    : BatchRequest :=
  let headers := default ∅ (options_headers req) in
  let jwt := jwt (auth state) in
  let headers :=
    if truthy jwt
    then <["authorization" := bearer (default "" jwt)]> headers
    else headers in
  {| requests := requests req; options_headers := Some headers |}.

(** [connectionParams()] of the websocket client. *)
Record ConnectionParams : Type := mkConnectionParams { params_jwt : option string }.

Definition connectionParams (state : ReduxState) : ConnectionParams :=
  {| params_jwt := jwt (auth state) |}.

(** Modelled from the spec: the moments at which the two transports of
    apollo-client and subscriptions-transport-ws call into app.js.  The
    batched transport runs the middleware when it prepares an outgoing
    batch, the subscription channel evaluates [connectionParams] on every
    connection and reconnection attempt; in between, the Redux store may
    change.  [network] lists what goes on the wire. *)
Inductive NetStep : Type :=
  | StoreChanged (state : ReduxState)
  | PrepareBatch (req : BatchRequest)
  | Connect.

Inductive Wire : Type :=
  | BatchSent (req : BatchRequest)
  | ConnectionInit (params : ConnectionParams).

Fixpoint network (state : ReduxState) (steps : list NetStep) : list Wire :=
  match steps with
  | [] => []
  | StoreChanged state' :: steps => network state' steps
  | PrepareBatch req :: steps =>
      BatchSent (applyBatchMiddleware state req) :: network state steps
  | Connect :: steps =>
      ConnectionInit (connectionParams state) :: network state steps
  end.

(** The Redux state in force after [steps]. *)
Definition current (state : ReduxState) (steps : list NetStep) : ReduxState :=
  foldl (λ st step, match step with StoreChanged st' => st' | _ => st end)
        state steps.

(** One entry of the batch response: [{ data?, errors? }]. *)
Record GraphQLError : Type := mkGraphQLError { message : string }.

Record Response : Type := mkResponse {
  data : option string;
  errors : option (list GraphQLError);
}.

(** Redux actions dispatched by app.js; [logout] is [logout()] of
    actions/auth.actions. *)
Inductive Action : Type := logout.

(** What the afterware can touch: the [responses] of the batch, the Redux
    store it dispatches to, the console, and the continuation [next]. *)
Record World : Type := mkWorld {
  responses : list Response;
  dispatched : list Action;
  console : list (list GraphQLError);
  next_calls : nat;
}.

Definition console_log (errs : list GraphQLError) (w : World) : World :=
  {| responses := responses w; dispatched := dispatched w;
     console := console w ++ [errs]; next_calls := next_calls w |}.

Definition store_dispatch (a : Action) (w : World) : World :=
  {| responses := responses w; dispatched := dispatched w ++ [a];
     console := console w; next_calls := next_calls w |}.

Definition next (w : World) : World :=
  {| responses := responses w; dispatched := dispatched w;
     console := console w; next_calls := S (next_calls w) |}.

(** [_.some(errors, { message })] *)
Definition some_message (errs : list GraphQLError) (m : string) : bool :=
  existsb (λ e, String.eqb (message e) m) errs.

(** The body of [responses.forEach], threading the local [isUnauthorized].
    An [errors] array is truthy even when empty. *)
Definition forEach_response (st : bool * World) (response : Response)
    : bool * World :=
  match errors response with
  | Some errs =>
      let w := console_log errs st.2 in
      if some_message errs "Unauthorized" then (true, w) else (st.1, w)
  | None => st
  end.

(** [applyBatchAfterware({ responses }, next)] *)
Definition applyBatchAfterware (w : World) : World :=
  let st := foldl forEach_response (false, w) (responses w) in
  let w := if st.1 then store_dispatch logout st.2 else st.2 in
  next w.

(** The authorization-failure marker, per response. *)
Definition unauthorized (r : Response) : bool :=
  match errors r with
  | Some errs => some_message errs "Unauthorized"
  | None => false
  end.

(** ** Properties of cached lists *)

(** No two entries with equal [id], [null] counted as an id like any other. *)
Definition distinct_ids (l : list (option Z)) : Prop := NoDup l.

(** No two entries with equal non-null [id]. *)
Definition distinct_known_ids (l : list (option Z)) : Prop := NoDup (omap id l).

(** How many messages carry the id [i]. *)
Definition count_id (i : option Z) (ms : list Message) : nat :=
  length (filter (λ m, msg_id m = i) ms).

(** The sentinel id of [optimisticResponse]. *)
Definition sentinel : option Z := Some (-1).

(** The cached lists the patches write to, under a notion [distinct] of
    duplicate-freedom: the [messages] of every cached group result, the
    [groups] of every cached user result, and the [messages] of each of
    these groups. *)
Definition store_inv (distinct : list (option Z) → Prop) (s : Store) : Prop :=
  (∀ groupId r, groupQuery s !! groupId = Some r →
     distinct (ids (grp_messages (group r)))) ∧
  (∀ userId r, userQuery s !! userId = Some r →
     distinct (ids (usr_groups (user r))) ∧
     Forall (λ g, distinct (ids (grp_messages g))) (usr_groups (user r))).

(** An event that carries a whole group carries its [messages] too. *)
Definition event_inv (distinct : list (option Z) → Prop) (ev : CacheEvent) : Prop :=
  match ev with
  | CreateGroupPatch _ g | GroupAdded g => distinct (ids (grp_messages g))
  | _ => True
  end.

(** The messages cached for a group by [GROUP_QUERY]; none when the result
    is not cached. *)
Definition cached_messages (s : Store) (groupId : Z) : list Message :=
  match groupQuery s !! groupId with
  | Some r => grp_messages (group r)
  | None => []
  end.

(** ** Sample inputs *)

Definition alice : UserRef := {| ref_id := Some 1; ref_username := "alice" |}.

Definition message_to (i : option Z) (text : string) (to : option Z) : Message :=
  {| msg_id := i; msg_text := text; msg_createdAt := "2017-06-01T00:00:00.000Z";
     msg_from := alice; msg_to := to |}.

Definition group_of (i : option Z) (name : string) (ms : list Message) : Group :=
  {| grp_id := i; grp_name := name; grp_messages := ms |}.

Definition user_with (gs : list Group) : UserResult :=
  {| user := {| usr_id := Some 1; usr_email := "alice@example.com";
                usr_groups := gs |} |}.


(** A cached user result with one group holding one message, and events
    for it. *)
Definition hello : Message := message_to (Some 1) "hello" (Some 1).
Definition again : Message := message_to (Some 2) "again" (Some 1).
Definition friends : Group := group_of (Some 1) "friends" [hello].
Definition cached_user : UserResult := user_with [friends].

(** Entities whose [id] is [null]. *)
Definition draft : Group := group_of None "draft" [].
Definition unsent : Message := message_to None "unsent" (Some 1).


(** A store with an empty group list cached for user 1. *)
Definition fresh_store : Store :=
  {| groupQuery := ∅; userQuery := {[ 1 := user_with [] ]} |}.


(** A store with the group [friends] cached under both queries. *)
Definition sample_store : Store :=
  {| groupQuery := {[ 1 := {| group := friends |} ]};
     userQuery := {[ 1 := cached_user ]} |}.

Definition family : Group := group_of (Some 2) "family" [].

(** Two optimistic sends, a push for each of two messages, a new group
    announced twice and a group left. *)
Definition sample_events : list CacheEvent :=
  [ CreateMessagePatch 1 (optimisticResponse "hi" 1 "2017-06-01T00:00:01.000Z");
    CreateMessagePatch 1 (optimisticResponse "hi!" 1 "2017-06-01T00:00:02.000Z");
    MessageAdded again;
    CreateMessagePatch 1 again;
    GroupAdded family;
    CreateGroupPatch 1 family;
    LeaveGroupPatch (Some 2);
    MessageAdded hello ].

(** The authoritative message of the testable properties: id 42, text
    "hi", sent to group 1. *)
Definition authoritative : Message := message_to (Some 42) "hi" (Some 1).

(** The group result of [sample_store] once a push for [authoritative] has
    been written to it. *)
Definition pushed_store : Store :=
  {| groupQuery := {[ 1 := {| group := group_of (Some 1) "friends" [authoritative; hello] |} ]};
     userQuery := {[ 1 := cached_user ]} |}.


(** The engine at rest over [sample_store], and the optimistic send of
    "hi" to group 1 as request 0. *)
Definition idle_engine : Engine.t Store Message :=
  {| Engine.base := sample_store; Engine.pending := [] |}.

Definition send_hi : Engine.Pending Store Message :=
  createMessage_request 0 "hi" 1 "2017-06-01T00:00:01.000Z".


(** A batch of three operations whose second response carries the
    authorization failure and whose third carries another error. *)
Definition ok_response : Response := {| data := Some "{}"; errors := None |}.
Definition unauthorized_response : Response :=
  {| data := None; errors := Some [ {| message := "Unauthorized" |} ] |}.
Definition failed_response : Response :=
  {| data := None; errors := Some [ {| message := "Group not found" |} ] |}.

Definition sample_world (rs : list Response) : World :=
  {| responses := rs; dispatched := []; console := []; next_calls := 0 |}.

Definition signed_in (token : string) : ReduxState :=
  {| auth := {| jwt := Some token |} |}.
Definition signed_out : ReduxState := {| auth := {| jwt := None |} |}.

Definition bare_request : BatchRequest :=
  {| requests := ["query user"]; options_headers := None |}.


(** ** messages.screen.js: what the list renders *)

(** [data={group.messages.slice().reverse()}] of the [FlatList]: a reversed
    copy; the cached array itself is not touched. *)
Definition Messages_render_data (r : GroupResult) : list Message :=
  reverse (grp_messages (group r)).

(** [keyExtractor = item => item.id] *)
Definition keyExtractor (item : Message) : option Z := msg_id item.


(** ** The selection screens (new-group.screen.js, finalize-group.screen.js) *)

(** [~n] and the truthiness of a number. *)
Definition bit_not (n : Z) : Z := Z.lnot n.
Definition truthy_number (n : Z) : bool := negb (n =? 0).

Section Arrays.
Context {A : Type} `{EqDecision A}.

(** [array.indexOf(x)] on an array of objects: [===] on objects is
    identity, so [A] is the type of object references. *)
Fixpoint indexOf_ref_from (i : Z) (l : list A) (x : A) : Z :=
  match l with
  | [] => -1
  | y :: l' => if bool_decide (y = x) then i else indexOf_ref_from (i + 1) l' x
  end.

Definition indexOf_ref (l : list A) (x : A) : Z := indexOf_ref_from 0 l x.

(** immutability-helper's [update(array, { $splice: [[start, 1]] })]: a copy
    of the array on which [splice(start, 1)] was called.  A negative
    [start] counts from the end, and [start] is clamped to the length. *)
Definition splice_one (start : Z) (l : list A) : list A :=
  let len := Z.of_nat (length l) in
  let from := if start <? 0 then Z.max (len + start) 0 else Z.min start len in
  delete (Z.to_nat from) l.
End Arrays.

(** Route parameters set by the two screens: [mode] is ['ready'] or
    [undefined].  The callbacks stored beside it are not modelled. *)
Record RouteParams : Type := mkRouteParams { mode : option string }.

(** [navigationOptions] of both screens:
    [isReady = state.params && state.params.mode === 'ready']; the header
    button is rendered when [isReady]. *)
Definition isReady (params : option RouteParams) : bool :=
  match params with
  | Some p => bool_decide (mode p = Some "ready")
  | None => false
  end.

Module NewGroup.
Section NewGroup.
Context {A : Type} `{EqDecision A}.

(** [this.state]: the selected users and the rows of the [ListView]
    data source [ds]; the [friends] sections are left out. *)
Record State : Type := mkState {
  selected : list A;
  ds : list A;
}.

(** The component: its state and the route parameters it sets. *)
Record Component : Type := mkComponent {
  state : State;
  params : option RouteParams;
}.

(** The constructor: [selected] comes from the route parameters when they
    are there, [selected || []] otherwise; [ds] is a new, empty data
    source. *)
Definition constructor (params_selected : option (list A)) : State :=
  {| selected := default [] params_selected; ds := [] |}.

(** [isSelected(user)]: [~this.state.selected.indexOf(user)] *)
Definition isSelected (user : A) (st : State) : Z :=
  bit_not (indexOf_ref (selected st) user).

(** [toggle(user)]: the state handed to [setState]. *)
Definition toggle (user : A) (st : State) : State :=
  let index := indexOf_ref (selected st) user in
  if truthy_number (bit_not index)
  then
    let selected := splice_one index (selected st) in
    {| selected := selected; ds := selected |}
  else
    let selected := selected st ++ [user] in
    {| selected := selected; ds := selected |}.

(** [refreshNavigation(selected)]:
    [mode: selected && selected.length ? 'ready' : undefined] *)
Definition refreshNavigation (selected : list A) : option RouteParams :=
  Some {| mode := if truthy_number (Z.of_nat (length selected))
                  then Some "ready" else None |}.

Definition componentDidMount (c : Component) : option RouteParams :=
  refreshNavigation (selected (state c)).

(** [componentWillUpdate(nextProps, nextState)]:
    [if (!!this.state.selected.length !== !!nextState.selected.length)] *)
Definition componentWillUpdate (nextState : State) (c : Component)
    : option RouteParams :=
  if negb (eqb (truthy_number (Z.of_nat (length (selected (state c)))))
               (truthy_number (Z.of_nat (length (selected nextState)))))
  then refreshNavigation (selected nextState)
  else params c.

(** The cell of a user: [backgroundColor] of its check button, from
    [isSelected: props.isSelected(props.item)]. *)
Definition Cell_backgroundColor (item : A) (st : State) : string :=
  if truthy_number (isSelected item st) then "blue" else "white".

(** React runs [componentDidMount] once the component is constructed, and
    on [setState] runs [componentWillUpdate] with the new state before
    installing it. *)
Definition mount (params_selected : option (list A)) : Component :=
  let c := {| state := constructor params_selected; params := None |} in
  {| state := state c; params := componentDidMount c |}.

Definition setState (nextState : State) (c : Component) : Component :=
  {| state := nextState; params := componentWillUpdate nextState c |}.

(** The check button of [user] is pressed. *)
Definition press (c : Component) (user : A) : Component :=
  setState (toggle user (state c)) c.

(** [componentWillReceiveProps(nextProps)], as far as the selection goes:
    the state handed to [setState].  [if (nextProps.selected)], the
    selection and the rows of the data source are replaced; an array is
    truthy even when empty. *)
Definition componentWillReceiveProps (nextProps_selected : option (list A))
    (st : State) : State :=
  match nextProps_selected with
  | Some selected => {| selected := selected; ds := selected |}
  | None => st
  end.

(** What happens to the mounted component. *)
Inductive Event : Type :=
  | Press (user : A)
  | Props (nextProps_selected : option (list A)).

Definition handle (c : Component) (e : Event) : Component :=
  match e with
  | Press user => press c user
  | Props nextProps_selected =>
      setState (componentWillReceiveProps nextProps_selected (state c)) c
  end.
End NewGroup.
Arguments State : clear implicits.
Arguments Component : clear implicits.
Arguments Event : clear implicits.
End NewGroup.

(** JavaScript values of [selected.length && name]. *)
Inductive JsValue : Type :=
  | JsNumber (n : Z)
  | JsString (s : string)
  | JsUndefined.

#[global] Instance JsValue_eq_dec : EqDecision JsValue.
Proof. solve_decision. Defined.

Definition js_truthy (v : JsValue) : bool :=
  match v with
  | JsNumber n => truthy_number n
  | JsString s => negb (String.eqb s "")
  | JsUndefined => false
  end.

Module FinalizeGroup.
Section FinalizeGroup.
Context {A : Type} `{EqDecision A}.

(** [this.state]: [name] is [undefined] until the subject is typed. *)
Record State : Type := mkState {
  selected : list A;
  ds : list A;
  name : option string;
}.

Record Component : Type := mkComponent {
  state : State;
  params : option RouteParams;
}.

(** The constructor: [selected] from the route parameters, and a data
    source cloned with these rows. *)
Definition constructor (params_selected : list A) : State :=
  {| selected := params_selected; ds := params_selected; name := None |}.

(** [remove(user)]: the state handed to [setState], if [setState] is
    called at all. *)
Definition remove (user : A) (st : State) : option State :=
  let index := indexOf_ref (selected st) user in
  if truthy_number (bit_not index)
  then
    let selected := splice_one index (selected st) in
    Some {| selected := selected; ds := selected; name := name st |}
  else None.

(** [onChangeText={name => this.setState({ name })}] *)
Definition onChangeText (text : string) (st : State) : State :=
  {| selected := selected st; ds := ds st; name := Some text |}.

(** [state.selected.length && state.name] *)
Definition ready_value (st : State) : JsValue :=
  if truthy_number (Z.of_nat (length (selected st)))
  then match name st with Some s => JsString s | None => JsUndefined end
  else JsNumber (Z.of_nat (length (selected st))).

(** [refreshNavigation(ready)]: [mode: ready ? 'ready' : undefined] *)
Definition refreshNavigation (ready : JsValue) : option RouteParams :=
  Some {| mode := if js_truthy ready then Some "ready" else None |}.

Definition componentDidMount (c : Component) : option RouteParams :=
  refreshNavigation (ready_value (state c)).

(** [componentWillUpdate(nextProps, nextState)] *)
Definition componentWillUpdate (nextState : State) (c : Component)
    : option RouteParams :=
  if bool_decide (ready_value nextState ≠ ready_value (state c))
  then refreshNavigation (ready_value nextState)
  else params c.

(** React's part, as for [NewGroup]. *)
Definition mount (params_selected : list A) : Component :=
  let c := {| state := constructor params_selected; params := None |} in
  {| state := state c; params := componentDidMount c |}.

Definition setState (nextState : State) (c : Component) : Component :=
  {| state := nextState; params := componentWillUpdate nextState c |}.

(** What the user does on the screen. *)
Inductive Action : Type :=
  | Remove (user : A)
  | Type_ (text : string).

Definition act (c : Component) (a : Action) : Component :=
  match a with
  | Remove user =>
      match remove user (state c) with
      | Some nextState => setState nextState c
      | None => c
      end
  | Type_ text => setState (onChangeText text (state c)) c
  end.
End FinalizeGroup.
Arguments State : clear implicits.
Arguments Component : clear implicits.
Arguments Action : clear implicits.
End FinalizeGroup.

(** What the finalize-group screen keeps true: the route parameters are
    those of the current state, and the data source shows the selection. *)
Definition FinalizeGroup_inv {A : Type} `{EqDecision A}
    (c : FinalizeGroup.Component A) : Prop :=
  FinalizeGroup.params c =
    FinalizeGroup.refreshNavigation (FinalizeGroup.ready_value (FinalizeGroup.state c)) ∧
  FinalizeGroup.ds (FinalizeGroup.state c) = FinalizeGroup.selected (FinalizeGroup.state c).


(** ** navigation.js: the subscriptions of [AppWithNavigationState] *)

Module AppWithNavigationState.

(** What [subscribeToMore] is asked to listen to:
    [MESSAGE_ADDED_SUBSCRIPTION] with [{ groupIds: map(user.groups, 'id') }]
    or [GROUP_ADDED_SUBSCRIPTION] with [{ userId: user.id }]. *)
Inductive Topic : Type :=
  | MessageAddedTopic (groupIds : list (option Z))
  | GroupAddedTopic (userId : option Z).

(** The subscriptions opened so far and those still active.  The function
    that [subscribeToMore] returns is represented by the position of its
    subscription in [opened]; calling it ends that subscription, and
    calling it again does nothing. *)
Record Channel : Type := mkChannel {
  opened : list Topic;
  active : gset nat;
}.

Definition subscribeToMore (topic : Topic) (ch : Channel) : nat * Channel :=
  (length (opened ch),
   {| opened := opened ch ++ [topic];
      active := {[ length (opened ch) ]} ∪ active ch |}).

Definition unsubscribe (h : nat) (ch : Channel) : Channel :=
  {| opened := opened ch; active := active ch ∖ {[ h ]} |}.

(** [props.subscribeToMessages()] and [props.subscribeToGroups()], for the
    [user] of these props. *)
Definition subscribeToMessages (user : User) : Channel → nat * Channel :=
  subscribeToMore (MessageAddedTopic (ids (usr_groups user))).

Definition subscribeToGroups (user : User) : Channel → nat * Channel :=
  subscribeToMore (GroupAddedTopic (usr_id user)).

(** The component instance: [this.props.user] and the two fields that
    hold the functions returned by the subscriptions. *)
Record Instance : Type := mkInstance {
  props_user : option User;
  groupSubscription : option nat;
  messagesSubscription : option nat;
}.

(** [if (this.x) { this.x(); }] *)
Definition call_if_set (field : option nat) (ch : Channel) : Channel :=
  match field with
  | Some h => unsubscribe h ch
  | None => ch
  end.

(** [componentWillReceiveProps(nextProps)] is three [if] statements in a
    row; [this.props] is still the old props while they run.  The first:
    [if (!nextProps.user)], both stored functions are called. *)
Definition when_signed_out (nextProps_user : option User)
    (this : Instance) (ch : Channel) : Instance * Channel :=
  match nextProps_user with
  | None =>
      (this, call_if_set (messagesSubscription this)
               (call_if_set (groupSubscription this) ch))
  | Some _ => (this, ch)
  end.

(** The second: [if (nextProps.user && (!this.props.user ||
    nextProps.user.groups.length !== this.props.user.groups.length))],
    the old message subscription is ended and, when the user has groups,
    a new one is opened and stored. *)
Definition when_groups_changed (nextProps_user : option User)
    (this : Instance) (ch : Channel) : Instance * Channel :=
  match nextProps_user with
  | Some next =>
      let changed :=
        match props_user this with
        | None => true
        | Some current =>
            negb (Z.of_nat (length (usr_groups next)) =?
                  Z.of_nat (length (usr_groups current)))
        end in
      if changed then
        (* unsubscribe from old *)
        let ch := call_if_set (messagesSubscription this) ch in
        (* subscribe to new *)
        if truthy_number (Z.of_nat (length (usr_groups next))) then
          let sub := subscribeToMessages next ch in
          ({| props_user := props_user this;
              groupSubscription := groupSubscription this;
              messagesSubscription := Some sub.1 |}, sub.2)
        else (this, ch)
      else (this, ch)
  | None => (this, ch)
  end.

(** The third: [if (!this.groupSubscription && nextProps.user)]. *)
Definition when_no_group_subscription (nextProps_user : option User)
    (this : Instance) (ch : Channel) : Instance * Channel :=
  match groupSubscription this, nextProps_user with
  | None, Some next =>
      let sub := subscribeToGroups next ch in
      ({| props_user := props_user this;
          groupSubscription := Some sub.1;
          messagesSubscription := messagesSubscription this |}, sub.2)
  | _, _ => (this, ch)
  end.

Definition componentWillReceiveProps (nextProps_user : option User)
    (this : Instance) (ch : Channel) : Instance * Channel :=
  let st := when_signed_out nextProps_user this ch in
  let st := when_groups_changed nextProps_user st.1 st.2 in
  when_no_group_subscription nextProps_user st.1 st.2.

(** React hands the new props to [componentWillReceiveProps] and then
    installs them as [this.props]. *)
Definition receive (st : Instance * Channel) (nextProps_user : option User)
    : Instance * Channel :=
  let st := componentWillReceiveProps nextProps_user st.1 st.2 in
  ({| props_user := nextProps_user;
      groupSubscription := groupSubscription st.1;
      messagesSubscription := messagesSubscription st.1 |}, st.2).

(** The component as mounted with [user]: nothing subscribed yet. *)
Definition mounted (user : option User) : Instance * Channel :=
  ({| props_user := user; groupSubscription := None;
      messagesSubscription := None |},
   {| opened := []; active := ∅ |}).

Definition is_messages (t : Topic) : Prop :=
  match t with MessageAddedTopic _ => True | GroupAddedTopic _ => False end.

Definition is_groups (t : Topic) : Prop :=
  match t with GroupAddedTopic _ => True | MessageAddedTopic _ => False end.

(** How the two fields relate to the channel: the stored functions belong
    to subscriptions of the right kind, an active subscription is the
    stored one of its kind, and every group subscription ever opened is
    the stored one. *)
Definition wired (g m : option nat) (ch : Channel) : Prop :=
  (∀ h, m = Some h → ∃ groupIds, opened ch !! h = Some (MessageAddedTopic groupIds)) ∧
  (∀ h, g = Some h → ∃ userId, opened ch !! h = Some (GroupAddedTopic userId)) ∧
  (∀ h t, h ∈ active ch → opened ch !! h = Some t →
     (is_messages t → m = Some h) ∧ (is_groups t → g = Some h)) ∧
  (∀ h, h ∈ active ch → (h < length (opened ch))%nat) ∧
  (∀ h userId, opened ch !! h = Some (GroupAddedTopic userId) → g = Some h).

(** A property [P] of the group ids of every active message
    subscription. *)
Definition counted (P : list (option Z) → Prop) (ch : Channel) : Prop :=
  ∀ h groupIds, h ∈ active ch →
    opened ch !! h = Some (MessageAddedTopic groupIds) → P groupIds.

(** What holds of the instance and the channel at every moment: they are
    wired, an active message subscription was opened for as many groups
    as the current user has (at least one), and without a user nothing is
    active. *)
Definition inv (st : Instance * Channel) : Prop :=
  wired (groupSubscription st.1) (messagesSubscription st.1) st.2 ∧
  (∀ h groupIds, h ∈ active st.2 →
     opened st.2 !! h = Some (MessageAddedTopic groupIds) →
     ∃ current, props_user st.1 = Some current ∧
       length groupIds = length (usr_groups current) ∧
       usr_groups current ≠ []) ∧
  (props_user st.1 = None → active st.2 = ∅).
End AppWithNavigationState.


(** Users for the subscription scenarios. *)
Definition member_of (groupIds : list Z) : User :=
  {| usr_id := Some 1; usr_email := "alice@example.com";
     usr_groups := (λ i, group_of (Some i) "group" []) <$> groupIds |}.

(** * Proofs *)

(** ** Strict equality, [indexOf] and array access *)

Lemma strict_eq_true (a b : option Z) : strict_eq a b = true ↔ a = b.
Proof. apply bool_decide_eq_true. Qed.

Lemma strict_eq_false (a b : option Z) : strict_eq a b = false ↔ a ≠ b.
Proof. apply bool_decide_eq_false. Qed.

Lemma indexOf_from_absent (i : Z) (l : list (option Z)) (x : option Z) :
  x ∉ l → indexOf_from i l x = -1.
Proof.
  revert i. induction l as [|y l IH]; intros i Hx; [done|].
  apply not_elem_of_cons in Hx as [Hne Hx]. simpl.
  destruct (strict_eq y x) eqn:E.
  - apply strict_eq_true in E. congruence.
  - by apply IH.
Qed.

Lemma indexOf_from_present (i : Z) (l : list (option Z)) (x : option Z) :
  x ∈ l →
  ∃ n : nat, indexOf_from i l x = i + Z.of_nat n ∧ l !! n = Some x.
Proof.
  revert i. induction l as [|y l IH]; intros i Hx.
  - by apply elem_of_nil in Hx.
  - simpl. destruct (strict_eq y x) eqn:E.
    + apply strict_eq_true in E as ->. exists 0%nat. split; [lia|done].
    + apply strict_eq_false in E. apply elem_of_cons in Hx as [->|Hx]; [done|].
      destruct (IH (i + 1) Hx) as (n & Hn & Hl).
      exists (S n). split; [lia|done].
Qed.

Lemma indexOf_absent (l : list (option Z)) (x : option Z) :
  x ∉ l → indexOf l x = -1.
Proof. apply indexOf_from_absent. Qed.

Lemma indexOf_present (l : list (option Z)) (x : option Z) :
  x ∈ l → ∃ n : nat, indexOf l x = Z.of_nat n ∧ l !! n = Some x.
Proof.
  intros Hx. destruct (indexOf_from_present 0 l x Hx) as (n & Hn & Hl).
  exists n. split; [|done]. unfold indexOf. lia.
Qed.

Lemma js_get_of_nat {A : Type} (l : list A) (n : nat) :
  js_get l (Z.of_nat n) = l !! n.
Proof.
  unfold js_get. destruct (Z.ltb_spec (Z.of_nat n) 0); [lia|].
  by rewrite Nat2Z.id.
Qed.

(** ** The duplicate checks *)

Lemma existsb_strict_eq {A : Type} `{Document A} (x : option Z) (l : list A) :
  existsb (λ doc, strict_eq x (doc_id doc)) l = true ↔ x ∈ ids l.
Proof.
  unfold ids. induction l as [|d l IH]; simpl.
  - split; [done|]. intros Hx. by apply elem_of_nil in Hx.
  - rewrite orb_true_iff, IH, strict_eq_true, elem_of_cons. done.
Qed.

Lemma isDuplicateDocument_true {A : Type} `{Document A} (d : A) (l : list A) :
  isDuplicateDocument d l = true ↔ doc_id d ≠ None ∧ doc_id d ∈ ids l.
Proof.
  unfold isDuplicateDocument. rewrite andb_true_iff, existsb_strict_eq.
  destruct (doc_id d); simpl; intuition congruence.
Qed.

Lemma isDuplicateDocument_false {A : Type} `{Document A} (d : A) (l : list A) :
  isDuplicateDocument d l = false ↔ doc_id d = None ∨ doc_id d ∉ ids l.
Proof.
  rewrite <- not_true_iff_false, isDuplicateDocument_true.
  destruct (doc_id d) as [i|]; [|intuition congruence].
  destruct (decide (Some i ∈ ids l)); intuition congruence.
Qed.

Lemma isDuplicateMessage_Document (m : Message) (ms : list Message) :
  isDuplicateMessage m ms = isDuplicateDocument m ms.
Proof. reflexivity. Qed.

Lemma isDuplicateGroup_Document (g : Group) (gs : list Group) :
  isDuplicateGroup g gs = isDuplicateDocument g gs.
Proof. reflexivity. Qed.

(** The group a [messageAdded] event is filed under, when it is cached. *)
Lemma target_group (groups : list Group) (to : option Z) :
  to ∈ ids groups →
  ∃ (n : nat) (target : Group),
    indexOf (ids groups) to = Z.of_nat n ∧ groups !! n = Some target ∧
    js_get groups (indexOf (ids groups) to) = Some target ∧
    grp_id target = to.
Proof.
  intros Hin. destruct (indexOf_present _ _ Hin) as (n & Hn & Hl).
  unfold ids in Hl. rewrite list_lookup_fmap in Hl.
  destruct (groups !! n) as [target|] eqn:Ht; [|done].
  exists n, target. rewrite Hn, js_get_of_nat. naive_solver.
Qed.

(** ** The subscription reducers *)

Lemma messageAdded_on_target (previousResult : UserResult) (newMessage : Message)
    (n : nat) (target : Group) :
  indexOf (ids (usr_groups (user previousResult))) (msg_to newMessage) = Z.of_nat n →
  usr_groups (user previousResult) !! n = Some target →
  messageAdded_updateQuery previousResult newMessage =
    if isDuplicateDocument newMessage (grp_messages target)
    then Returned previousResult
    else Returned (set_groups previousResult
           (<[n := set_messages target [newMessage]]>
              (usr_groups (user previousResult)))).
Proof.
  intros Hi Ht. unfold messageAdded_updateQuery.
  rewrite Hi, js_get_of_nat, Ht, Nat2Z.id. done.
Qed.

Lemma ids_insert_messages (groups : list Group) (n : nat) (target : Group)
    (ms : list Message) :
  groups !! n = Some target →
  ids (<[n := set_messages target ms]> groups) = ids groups.
Proof.
  intros Ht. unfold ids. rewrite list_fmap_insert. apply list_insert_id.
  rewrite list_lookup_fmap, Ht. done.
Qed.

Lemma usr_groups_set_groups (r : UserResult) (gs : list Group) :
  usr_groups (user (set_groups r gs)) = gs.
Proof. reflexivity. Qed.

Lemma messageAdded_without_target (previousResult : UserResult)
    (newMessage : Message) :
  msg_to newMessage ∉ ids (usr_groups (user previousResult)) →
  messageAdded_updateQuery previousResult newMessage = Thrown TypeError.
Proof.
  intros Hno. unfold messageAdded_updateQuery.
  by rewrite (indexOf_absent _ _ Hno).
Qed.

(** C9: the [messageAdded] reducer returns exactly when the group the
    event is addressed to is in the cached [user.groups]; for an event
    whose [to.id] matches no cached group, [indexOf] yields [-1],
    [previousGroups[-1]] is [undefined] and reading its [messages] throws. *)
Theorem messageAdded_needs_cached_group
    (previousResult : UserResult) (newMessage : Message) :
  let previousGroups := usr_groups (user previousResult) in
  ((∃ r, messageAdded_updateQuery previousResult newMessage = Returned r) ↔
     msg_to newMessage ∈ ids previousGroups) ∧
  (msg_to newMessage ∉ ids previousGroups →
     indexOf (ids previousGroups) (msg_to newMessage) = -1 ∧
     js_get previousGroups (indexOf (ids previousGroups) (msg_to newMessage)) = None ∧
     messageAdded_updateQuery previousResult newMessage = Thrown TypeError).
Proof.
  intros previousGroups.
  assert (Habsent : msg_to newMessage ∉ ids previousGroups →
     indexOf (ids previousGroups) (msg_to newMessage) = -1 ∧
     js_get previousGroups (indexOf (ids previousGroups) (msg_to newMessage)) = None ∧
     messageAdded_updateQuery previousResult newMessage = Thrown TypeError).
  { intros Hno. rewrite (indexOf_absent _ _ Hno).
    split; [done|]. split; [done|]. by apply messageAdded_without_target. }
  split; [|exact Habsent]. split.
  - intros [r Hr]. destruct (decide (msg_to newMessage ∈ ids previousGroups)) as [|Hno]; [done|].
    destruct (Habsent Hno) as (_ & _ & Hthrow). congruence.
  - intros Hin. destruct (target_group _ _ Hin) as (n & target & Hi & Ht & _ & _).
    rewrite (messageAdded_on_target _ _ n target Hi Ht).
    destruct (isDuplicateDocument _ _); eauto.
Qed.

Lemma messageAdded_needs_cached_group_witness :
  messageAdded_updateQuery
    (user_with [group_of (Some 1) "friends" []])
    (message_to (Some 7) "hello" (Some 2)) = Thrown TypeError ∧
  ∃ r, messageAdded_updateQuery
    (user_with [group_of (Some 1) "friends" []])
    (message_to (Some 7) "hello" (Some 1)) = Returned r.
Proof.
  split.
  - apply (messageAdded_needs_cached_group
             (user_with [group_of (Some 1) "friends" []])
             (message_to (Some 7) "hello" (Some 2))).
    cbn. intros Hin. apply list_elem_of_singleton in Hin. discriminate.
  - apply (messageAdded_needs_cached_group
             (user_with [group_of (Some 1) "friends" []])
             (message_to (Some 7) "hello" (Some 1))).
    cbn. apply list_elem_of_singleton. reflexivity.
Defined.

(** C10: both duplicate checks answer [false] for an entity whose [id] is
    [null], whatever the target list holds, so such an entity is inserted
    by every patch that reaches its insertion (appended by [groupAdded]
    and [createGroup], set by [messageAdded], prepended by
    [createMessage]); conversely a check that answers [true], the only
    way to a discard, was given a non-null [id]. *)
Theorem null_id_bypasses_dedup :
  (∀ (m : Message) (ms : list Message), msg_id m = None →
     isDuplicateDocument m ms = false ∧ isDuplicateMessage m ms = false) ∧
  (∀ (g : Group) (gs : list Group), grp_id g = None →
     isDuplicateDocument g gs = false ∧ isDuplicateGroup g gs = false) ∧
  (∀ (prev : UserResult) (g : Group), grp_id g = None →
     groupAdded_updateQuery prev g =
       set_groups prev (usr_groups (user prev) ++ [g])) ∧
  (∀ (prev : UserResult) (m : Message) (n : nat) (target : Group),
     msg_id m = None →
     indexOf (ids (usr_groups (user prev))) (msg_to m) = Z.of_nat n →
     usr_groups (user prev) !! n = Some target →
     messageAdded_updateQuery prev m =
       Returned (set_groups prev
         (<[n := set_messages target [m]]> (usr_groups (user prev))))) ∧
  (∀ (s : Store) (groupId : Z) (m : Message) (data : GroupResult),
     msg_id m = None → groupQuery s !! groupId = Some data →
     cached_messages (exec (createMessage_update groupId m) s) groupId =
       m :: grp_messages (group data)) ∧
  (∀ (s : Store) (userId : Z) (g : Group) (data : UserResult),
     grp_id g = None → userQuery s !! userId = Some data →
     userQuery (exec (createGroup_update userId g) s) !! userId =
       Some (set_groups data (usr_groups (user data) ++ [g]))) ∧
  (∀ (m : Message) (ms : list Message),
     isDuplicateDocument m ms = true ∨ isDuplicateMessage m ms = true →
     msg_id m ≠ None) ∧
  (∀ (g : Group) (gs : list Group),
     isDuplicateDocument g gs = true ∨ isDuplicateGroup g gs = true →
     grp_id g ≠ None).
Proof.
  assert (Hm : ∀ (m : Message) (ms : list Message), msg_id m = None →
            isDuplicateDocument m ms = false).
  { intros m ms Hnull. unfold isDuplicateDocument, doc_id, Message_document.
    by rewrite Hnull. }
  assert (Hg : ∀ (g : Group) (gs : list Group), grp_id g = None →
            isDuplicateDocument g gs = false).
  { intros g gs Hnull. unfold isDuplicateDocument, doc_id, Group_document.
    by rewrite Hnull. }
  repeat split.
  - by apply Hm.
  - rewrite isDuplicateMessage_Document. by apply Hm.
  - by apply Hg.
  - rewrite isDuplicateGroup_Document. by apply Hg.
  - intros prev g Hnull. unfold groupAdded_updateQuery. by rewrite Hg.
  - intros prev m n target Hnull Hi Ht.
    rewrite (messageAdded_on_target _ _ n target Hi Ht). by rewrite Hm.
  - intros s groupId m data Hnull Hdata.
    unfold cached_messages, exec, createMessage_update, mbind, M_bind, readQuery_GROUP.
    rewrite Hdata, isDuplicateMessage_Document, Hm by done.
    simpl. by rewrite lookup_insert_eq.
  - intros s userId g data Hnull Hdata.
    unfold exec, createGroup_update, mbind, M_bind, readQuery_USER.
    rewrite Hdata, isDuplicateGroup_Document, Hg by done.
    simpl. by rewrite lookup_insert_eq.
  - intros m ms [Hd|Hd] Hnull.
    + rewrite Hm in Hd; done.
    + rewrite isDuplicateMessage_Document, Hm in Hd; done.
  - intros g gs [Hd|Hd] Hnull.
    + rewrite Hg in Hd; done.
    + rewrite isDuplicateGroup_Document, Hg in Hd; done.
Qed.

Lemma null_id_bypasses_dedup_witness :
  isDuplicateDocument draft [draft] = false ∧
  isDuplicateMessage unsent [unsent] = false ∧
  groupAdded_updateQuery (user_with [draft]) draft = user_with [draft; draft] ∧
  messageAdded_updateQuery (user_with [group_of (Some 1) "friends" [unsent]]) unsent =
    Returned (user_with [group_of (Some 1) "friends" [unsent]]).
Proof.
  pose proof null_id_bypasses_dedup as (Hm & Hg & Hga & Hma & _).
  split; [|split; [|split]].
  - apply (Hg draft [draft]). reflexivity.
  - apply (Hm unsent [unsent]). reflexivity.
  - apply (Hga (user_with [draft]) draft). reflexivity.
  - apply (Hma (user_with [group_of (Some 1) "friends" [unsent]]) unsent 0%nat
               (group_of (Some 1) "friends" [unsent])); reflexivity.
Defined.

(** C5, as stated, fails for [null] ids: the cached groups hold an entity
    with the same ([null]) id as the one the event carries, and the reducer
    appends the event's group all the same. *)
Lemma dedup_identity_fails_on_null_id :
  grp_id draft ∈ ids (usr_groups (user (user_with [draft]))) ∧
  groupAdded_updateQuery (user_with [draft]) draft = user_with [draft; draft] ∧
  user_with [draft; draft] ≠ user_with [draft] ∧
  groupAdded_updateQuery (groupAdded_updateQuery (user_with []) draft) draft ≠
    groupAdded_updateQuery (user_with []) draft.
Proof.
  split; [|split; [|split]].
  - cbn. apply list_elem_of_singleton. reflexivity.
  - reflexivity.
  - discriminate.
  - discriminate.
Qed.

(** C5, amended: when the entity carried by a subscription event has a
    non-null id that an entity of the target list already has, the reducer
    returns the previous result unchanged; and for any event with a
    non-null id, the result of applying it once is left unchanged by
    applying it again. *)
Theorem dedup_identity (prev : UserResult) :
  (∀ g : Group, grp_id g ≠ None → grp_id g ∈ ids (usr_groups (user prev)) →
     groupAdded_updateQuery prev g = prev) ∧
  (∀ (m : Message) (n : nat) (target : Group), msg_id m ≠ None →
     indexOf (ids (usr_groups (user prev))) (msg_to m) = Z.of_nat n →
     usr_groups (user prev) !! n = Some target →
     msg_id m ∈ ids (grp_messages target) →
     messageAdded_updateQuery prev m = Returned prev) ∧
  (∀ g : Group, grp_id g ≠ None →
     groupAdded_updateQuery (groupAdded_updateQuery prev g) g =
       groupAdded_updateQuery prev g) ∧
  (∀ (m : Message) (r : UserResult), msg_id m ≠ None →
     messageAdded_updateQuery prev m = Returned r →
     messageAdded_updateQuery r m = Returned r).
Proof.
  assert (Hgroup : ∀ (p : UserResult) (g : Group), grp_id g ≠ None →
            grp_id g ∈ ids (usr_groups (user p)) → groupAdded_updateQuery p g = p).
  { intros p g Hid Hin. unfold groupAdded_updateQuery.
    replace (isDuplicateDocument g (usr_groups (user p))) with true; [done|].
    symmetry. by apply isDuplicateDocument_true. }
  assert (Hmessage : ∀ (p : UserResult) (m : Message) (n : nat) (target : Group),
            msg_id m ≠ None →
            indexOf (ids (usr_groups (user p))) (msg_to m) = Z.of_nat n →
            usr_groups (user p) !! n = Some target →
            msg_id m ∈ ids (grp_messages target) →
            messageAdded_updateQuery p m = Returned p).
  { intros p m n target Hid Hi Ht Hin.
    rewrite (messageAdded_on_target _ _ n target Hi Ht).
    replace (isDuplicateDocument m (grp_messages target)) with true; [done|].
    symmetry. by apply isDuplicateDocument_true. }
  split; [exact (Hgroup prev)|]. split; [exact (Hmessage prev)|]. split.
  - intros g Hid.
    destruct (isDuplicateDocument g (usr_groups (user prev))) eqn:Hd.
    + apply isDuplicateDocument_true in Hd as [_ Hin].
      by rewrite !(Hgroup prev g Hid Hin).
    + assert (Hadd : groupAdded_updateQuery prev g =
                set_groups prev (usr_groups (user prev) ++ [g])).
      { unfold groupAdded_updateQuery. by rewrite Hd. }
      rewrite Hadd. apply Hgroup; [done|]. cbn. unfold ids. rewrite fmap_app.
      apply elem_of_app. right. apply list_elem_of_singleton. done.
  - intros m r Hid Hr.
    destruct (decide (msg_to m ∈ ids (usr_groups (user prev)))) as [Hin|Hno].
    + destruct (target_group _ _ Hin) as (n & target & Hi & Ht & _ & _).
      rewrite (messageAdded_on_target _ _ n target Hi Ht) in Hr.
      destruct (isDuplicateDocument m (grp_messages target)) eqn:Hd.
      * injection Hr as <-. apply (Hmessage prev m n target); try done.
        by apply isDuplicateDocument_true in Hd as [_ ?].
      * injection Hr as <-.
        apply (Hmessage _ m n (set_messages target [m])); try done.
        -- by rewrite usr_groups_set_groups, (ids_insert_messages _ _ _ _ Ht).
        -- rewrite usr_groups_set_groups.
           apply list_lookup_insert_eq. by eapply lookup_lt_Some.
        -- apply list_elem_of_singleton. done.
    + rewrite (messageAdded_without_target prev m Hno) in Hr. discriminate.
Qed.

Lemma dedup_identity_witness :
  groupAdded_updateQuery cached_user friends = cached_user ∧
  messageAdded_updateQuery cached_user hello = Returned cached_user ∧
  groupAdded_updateQuery
    (groupAdded_updateQuery cached_user (group_of (Some 2) "family" []))
    (group_of (Some 2) "family" []) =
  groupAdded_updateQuery cached_user (group_of (Some 2) "family" []) ∧
  messageAdded_updateQuery (user_with [group_of (Some 1) "friends" [again]]) again =
    Returned (user_with [group_of (Some 1) "friends" [again]]).
Proof.
  pose proof (dedup_identity cached_user) as (Hg & Hm & Hgg & Hmm).
  split; [|split; [|split]].
  - apply (Hg friends); [discriminate|].
    cbn. apply list_elem_of_singleton. reflexivity.
  - apply (Hm hello 0%nat friends); [discriminate|reflexivity|reflexivity|].
    cbn. apply list_elem_of_singleton. reflexivity.
  - apply (Hgg (group_of (Some 2) "family" [])). discriminate.
  - apply (Hmm again); [discriminate|reflexivity].
Defined.

(** C4, as stated, fails for messages: the group cached with [hello]
    receives the non-duplicate [again], and its list becomes [[again]], not
    [again] followed by [hello]. *)
Lemma messageAdded_drops_cached_messages :
  isDuplicateDocument again (grp_messages friends) = false ∧
  messageAdded_updateQuery cached_user again =
    Returned (user_with [group_of (Some 1) "friends" [again]]) ∧
  user_with [group_of (Some 1) "friends" [again]] ≠
    user_with [group_of (Some 1) "friends" (again :: grp_messages friends)].
Proof. split; [reflexivity|]. split; [reflexivity|discriminate]. Qed.

(** C4, amended: when the subscription patcher inserts a non-duplicate
    message for a cached group, the [messages] of that group in the cached
    user result become the one-element list holding the new message, which
    is therefore first; the messages cached there before are not kept, and
    every other group and the order of the groups are unchanged.  A
    non-duplicate new group is appended to the end of the user's groups. *)
Theorem subscription_insertion (prev : UserResult) :
  (∀ (m : Message) (n : nat) (target : Group),
     indexOf (ids (usr_groups (user prev))) (msg_to m) = Z.of_nat n →
     usr_groups (user prev) !! n = Some target →
     isDuplicateDocument m (grp_messages target) = false →
     ∃ r, messageAdded_updateQuery prev m = Returned r ∧
          usr_groups (user r) !! n = Some (set_messages target [m]) ∧
          (∀ k : nat, k ≠ n → usr_groups (user r) !! k = usr_groups (user prev) !! k) ∧
          length (usr_groups (user r)) = length (usr_groups (user prev)) ∧
          ids (usr_groups (user r)) = ids (usr_groups (user prev))) ∧
  (∀ g : Group, isDuplicateDocument g (usr_groups (user prev)) = false →
     groupAdded_updateQuery prev g =
       set_groups prev (usr_groups (user prev) ++ [g])).
Proof.
  split.
  - intros m n target Hi Ht Hd.
    rewrite (messageAdded_on_target _ _ n target Hi Ht), Hd.
    eexists. split; [reflexivity|]. rewrite usr_groups_set_groups.
    split; [|split; [|split]].
    + apply list_lookup_insert_eq. by eapply lookup_lt_Some.
    + intros k Hk. by apply list_lookup_insert_ne.
    + apply length_insert.
    + by apply ids_insert_messages.
  - intros g Hd. unfold groupAdded_updateQuery. by rewrite Hd.
Qed.

Lemma subscription_insertion_witness :
  (∃ r, messageAdded_updateQuery cached_user again = Returned r ∧
        usr_groups (user r) !! 0%nat = Some (set_messages friends [again])) ∧
  groupAdded_updateQuery cached_user (group_of (Some 2) "family" []) =
    user_with [friends; group_of (Some 2) "family" []].
Proof.
  pose proof (subscription_insertion cached_user) as [Hm Hg].
  split.
  - destruct (Hm again 0%nat friends) as (r & Hr & Hl & _); [reflexivity..|].
    exists r. split; [exact Hr|exact Hl].
  - apply (Hg (group_of (Some 2) "family" [])). reflexivity.
Defined.

(** ** Duplicate-free lists *)

Lemma elem_of_known (i : Z) (l : list (option Z)) : i ∈ omap id l ↔ Some i ∈ l.
Proof.
  rewrite list_elem_of_omap. split.
  - intros (x & Hx & Heq). simpl in Heq. by subst.
  - intros Hin. by exists (Some i).
Qed.

Lemma known_cons (x : option Z) (l : list (option Z)) :
  distinct_known_ids (x :: l) ↔ (x = None ∨ x ∉ l) ∧ distinct_known_ids l.
Proof.
  unfold distinct_known_ids. destruct x as [i|]; simpl.
  - rewrite NoDup_cons, elem_of_known. intuition congruence.
  - intuition.
Qed.

Lemma known_snoc (x : option Z) (l : list (option Z)) :
  distinct_known_ids (l ++ [x]) ↔ (x = None ∨ x ∉ l) ∧ distinct_known_ids l.
Proof.
  induction l as [|y l IH].
  - simpl. rewrite known_cons. split; [|tauto].
    intros _. split; [|apply NoDup_nil_2].
    right. apply not_elem_of_nil.
  - simpl. rewrite !known_cons, IH, not_elem_of_cons, not_elem_of_app.
    rewrite list_elem_of_singleton.
    destruct x as [i|], y as [j|]; intuition congruence.
Qed.

Lemma known_nil : distinct_known_ids [].
Proof. apply NoDup_nil_2. Qed.

Lemma known_singleton (x : option Z) : distinct_known_ids [x].
Proof.
  apply known_cons. split; [|apply known_nil]. right. apply not_elem_of_nil.
Qed.

Lemma known_filter {A : Type} `{Document A} (P : A → Prop)
    `{∀ x, Decision (P x)} (l : list A) :
  distinct_known_ids (ids l) → distinct_known_ids (ids (filter P l)).
Proof.
  induction l as [|d l IH]; [done|].
  unfold ids in *. rewrite fmap_cons, known_cons, filter_cons.
  intros [Hd Hl]. destruct (decide (P d)); [|by apply IH].
  rewrite fmap_cons, known_cons. split; [|by apply IH].
  destruct Hd as [Hd|Hd]; [by left|right].
  intros Hin. apply Hd. apply list_elem_of_fmap in Hin as (x & Hx & Hin).
  apply list_elem_of_filter in Hin as [_ Hin].
  apply list_elem_of_fmap. eauto.
Qed.

Lemma Forall_filter_keep {A : Type} (Q P : A → Prop) `{∀ x, Decision (P x)}
    (l : list A) :
  Forall Q l → Forall Q (filter P l).
Proof.
  rewrite !Forall_forall. intros HQ x Hx.
  apply list_elem_of_filter in Hx as [_ Hx]. by apply HQ.
Qed.

Lemma known_count (ms : list Message) (i : Z) :
  distinct_known_ids (ids ms) → (count_id (Some i) ms ≤ 1)%nat.
Proof.
  unfold count_id, ids. induction ms as [|m ms IH]; [simpl; lia|].
  rewrite fmap_cons, known_cons, filter_cons. intros [Hm Hms].
  destruct (decide (msg_id m = Some i)) as [Heq|]; [|by apply IH].
  destruct Hm as [Hm|Hm]; [unfold doc_id, Message_document in Hm; congruence|].
  assert (Hnone : filter (λ m0, msg_id m0 = Some i) ms = []).
  { destruct (filter _ ms) as [|m' l'] eqn:Hf; [done|]. exfalso. apply Hm.
    assert (Hin : m' ∈ filter (λ m0, msg_id m0 = Some i) ms)
      by (rewrite Hf; apply list_elem_of_here).
    apply list_elem_of_filter in Hin as [Hid Hin].
    apply list_elem_of_fmap. exists m'. split; [|done].
    unfold doc_id, Message_document. congruence. }
  rewrite Hnone. simpl. lia.
Qed.

(** ** The invariant of the cache *)

Lemma store_inv_write_group (D : list (option Z) → Prop) (s : Store)
    (groupId : Z) (data : GroupResult) :
  store_inv D s → D (ids (grp_messages (group data))) →
  store_inv D (exec (writeQuery_GROUP groupId data) s).
Proof.
  intros [Hg Hu] Hd. split; [|exact Hu].
  intros k r. unfold exec; simpl. rewrite lookup_insert_Some.
  intros [[_ <-]|[_ Hk]]; [done|by eapply Hg].
Qed.

Lemma store_inv_write_user (D : list (option Z) → Prop) (s : Store)
    (userId : Z) (data : UserResult) :
  store_inv D s →
  D (ids (usr_groups (user data))) →
  Forall (λ g, D (ids (grp_messages g))) (usr_groups (user data)) →
  store_inv D (exec (writeQuery_USER userId data) s).
Proof.
  intros [Hg Hu] Hd Hf. split; [exact Hg|].
  intros k r. unfold exec; simpl. rewrite lookup_insert_Some.
  intros [[_ <-]|[_ Hk]]; [done|by eapply Hu].
Qed.

Lemma groupAdded_inv (prev : UserResult) (g : Group) :
  distinct_known_ids (ids (usr_groups (user prev))) →
  Forall (λ g, distinct_known_ids (ids (grp_messages g))) (usr_groups (user prev)) →
  distinct_known_ids (ids (grp_messages g)) →
  let r := groupAdded_updateQuery prev g in
  distinct_known_ids (ids (usr_groups (user r))) ∧
  Forall (λ g, distinct_known_ids (ids (grp_messages g))) (usr_groups (user r)).
Proof.
  intros Hd Hf Hg. simpl. unfold groupAdded_updateQuery.
  destruct (isDuplicateDocument g (usr_groups (user prev))) eqn:Hdup; [done|].
  rewrite usr_groups_set_groups. split.
  - unfold ids. rewrite fmap_app. apply known_snoc. split; [|done].
    by apply isDuplicateDocument_false.
  - apply Forall_app. split; [done|]. by apply Forall_singleton.
Qed.

Lemma messageAdded_inv (prev r : UserResult) (m : Message) :
  distinct_known_ids (ids (usr_groups (user prev))) →
  Forall (λ g, distinct_known_ids (ids (grp_messages g))) (usr_groups (user prev)) →
  messageAdded_updateQuery prev m = Returned r →
  distinct_known_ids (ids (usr_groups (user r))) ∧
  Forall (λ g, distinct_known_ids (ids (grp_messages g))) (usr_groups (user r)).
Proof.
  intros Hd Hf Hr.
  destruct (decide (msg_to m ∈ ids (usr_groups (user prev)))) as [Hin|Hno].
  - destruct (target_group _ _ Hin) as (n & target & Hi & Ht & _ & _).
    rewrite (messageAdded_on_target _ _ n target Hi Ht) in Hr.
    destruct (isDuplicateDocument m (grp_messages target));
      injection Hr as <-; [done|].
    rewrite usr_groups_set_groups, (ids_insert_messages _ _ _ _ Ht).
    split; [done|]. apply Forall_insert; [done|]. apply known_singleton.
  - rewrite (messageAdded_without_target prev m Hno) in Hr. discriminate.
Qed.

Lemma step_inv (s : Store) (ev : CacheEvent) :
  store_inv distinct_known_ids s → event_inv distinct_known_ids ev →
  store_inv distinct_known_ids (step s ev).
Proof.
  intros Hs Hev. pose proof Hs as [Hg Hu].
  destruct ev as [groupId m|userId g|i|i|m|g]; simpl.
  - unfold exec at 1, createMessage_update, mbind, M_bind, readQuery_GROUP.
    destruct (groupQuery s !! groupId) as [data|] eqn:Hdata; [|done].
    destruct (isDuplicateMessage m (grp_messages (group data))) eqn:Hdup; [done|].
    simpl. apply (store_inv_write_group _ s); [done|].
    change (distinct_known_ids
              (doc_id m :: ids (grp_messages (group data)))).
    apply known_cons. split.
    + rewrite isDuplicateMessage_Document in Hdup.
      by apply isDuplicateDocument_false.
    + by eapply Hg.
  - unfold exec at 1, createGroup_update, mbind, M_bind, readQuery_USER.
    destruct (userQuery s !! userId) as [data|] eqn:Hdata; [|done].
    destruct (Hu _ _ Hdata) as [Hd Hf].
    destruct (isDuplicateGroup g (usr_groups (user data))) eqn:Hdup; [done|].
    apply (store_inv_write_user _ s); [done|..]; rewrite usr_groups_set_groups.
    + unfold ids. rewrite fmap_app. apply known_snoc. split; [|done].
      rewrite isDuplicateGroup_Document in Hdup.
      by apply isDuplicateDocument_false.
    + apply Forall_app. split; [done|]. by apply Forall_singleton.
  - unfold exec at 1, deleteGroup_update, removeGroup_update, mbind, M_bind,
      readQuery_USER.
    destruct (userQuery s !! 1) as [data|] eqn:Hdata; [|done].
    destruct (Hu _ _ Hdata) as [Hd Hf].
    apply (store_inv_write_user _ s); [done|..]; rewrite usr_groups_set_groups.
    + by apply known_filter.
    + by apply Forall_filter_keep.
  - unfold exec at 1, leaveGroup_update, removeGroup_update, mbind, M_bind,
      readQuery_USER.
    destruct (userQuery s !! 1) as [data|] eqn:Hdata; [|done].
    destruct (Hu _ _ Hdata) as [Hd Hf].
    apply (store_inv_write_user _ s); [done|..]; rewrite usr_groups_set_groups.
    + by apply known_filter.
    + by apply Forall_filter_keep.
  - unfold apply_updateQuery.
    destruct (userQuery s !! 1) as [prev|] eqn:Hprev; [|done].
    destruct (Hu _ _ Hprev) as [Hd Hf].
    destruct (messageAdded_updateQuery prev m) as [r|] eqn:Hr; [|done].
    destruct (messageAdded_inv prev r m Hd Hf Hr).
    by apply store_inv_write_user.
  - unfold apply_updateQuery.
    destruct (userQuery s !! 1) as [prev|] eqn:Hprev; [|done].
    destruct (Hu _ _ Hprev) as [Hd Hf].
    destruct (groupAdded_inv prev g Hd Hf Hev).
    by apply store_inv_write_user.
Qed.

Lemma run_inv (evs : list CacheEvent) (s : Store) :
  store_inv distinct_known_ids s →
  Forall (event_inv distinct_known_ids) evs →
  store_inv distinct_known_ids (run evs s).
Proof.
  revert s. induction evs as [|ev evs IH]; intros s Hs Hevs; [done|].
  apply Forall_cons in Hevs as [Hev Hevs].
  apply (IH (step s ev)); [by apply step_inv|done].
Qed.

(** C2, as stated, fails for [null] ids: two [groupAdded] events carrying a
    group whose id is [null] leave two entries with equal id in the user's
    groups. *)
Lemma null_identities_repeat :
  store_inv distinct_ids fresh_store ∧
  Forall (event_inv distinct_ids) [GroupAdded draft; GroupAdded draft] ∧
  userQuery (run [GroupAdded draft; GroupAdded draft] fresh_store) !! 1 =
    Some (user_with [draft; draft]) ∧
  ¬ distinct_ids (ids (usr_groups (user (user_with [draft; draft])))).
Proof.
  split; [|split; [|split]].
  - split.
    + intros k r Hk. unfold fresh_store in Hk; simpl in Hk.
      by rewrite lookup_empty in Hk.
    + intros k r Hk. unfold fresh_store in Hk; simpl in Hk.
      apply lookup_singleton_Some in Hk as [_ <-].
      split; [apply NoDup_nil_2|apply Forall_nil_2].
  - repeat constructor.
  - reflexivity.
  - intros Hnd. apply NoDup_cons in Hnd as [Hnotin _].
    apply Hnotin. apply list_elem_of_here.
Qed.

(** C2, amended: starting from a cache whose lists hold no two entries with
    equal non-null id, and for every sequence of mutation patches and
    subscription events (the groups they carry being duplicate-free in the
    same sense), no cached [messages] list and no cached [groups] list ever
    holds two entries with equal non-null id; in particular at most one
    cached message of a group carries the sentinel id [-1]. *)
Theorem no_duplicate_known_identities (s : Store) (evs : list CacheEvent) :
  store_inv distinct_known_ids s →
  Forall (event_inv distinct_known_ids) evs →
  store_inv distinct_known_ids (run evs s) ∧
  ∀ groupId : Z,
    (count_id sentinel (cached_messages (run evs s) groupId) ≤ 1)%nat.
Proof.
  intros Hs Hevs. pose proof (run_inv evs s Hs Hevs) as Hrun.
  split; [done|]. intros groupId. unfold cached_messages, sentinel.
  destruct (groupQuery (run evs s) !! groupId) as [r|] eqn:Hr.
  - apply known_count. destruct Hrun as [Hg _]. by eapply Hg.
  - unfold count_id. rewrite filter_nil. simpl. lia.
Qed.

Lemma sample_store_inv : store_inv distinct_known_ids sample_store.
Proof.
  split.
  - intros k r Hk. unfold sample_store in Hk; simpl in Hk.
    apply lookup_singleton_Some in Hk as [_ <-]. apply NoDup_singleton.
  - intros k r Hk. unfold sample_store in Hk; simpl in Hk.
    apply lookup_singleton_Some in Hk as [_ <-]. split.
    + apply NoDup_singleton.
    + apply Forall_singleton. apply NoDup_singleton.
Qed.

Lemma no_duplicate_known_identities_witness :
  store_inv distinct_known_ids (run sample_events sample_store) ∧
  (count_id sentinel (cached_messages (run sample_events sample_store) 1) ≤ 1)%nat.
Proof.
  destruct (no_duplicate_known_identities sample_store sample_events) as [Hinv Hcount].
  - exact sample_store_inv.
  - unfold sample_events. repeat (apply Forall_cons; split; [simpl; try done|]).
    + apply NoDup_nil_2.
    + apply NoDup_nil_2.
    + apply Forall_nil_2.
  - split; [exact Hinv|exact (Hcount 1)].
Defined.

(** ** The [update] of [createMessage] *)

Lemma createMessage_update_duplicate (s : Store) (groupId : Z) (m : Message)
    (data : GroupResult) :
  groupQuery s !! groupId = Some data →
  isDuplicateMessage m (grp_messages (group data)) = true →
  createMessage_update groupId m s = (Returned (Some data), s).
Proof.
  intros Hdata Hdup.
  unfold createMessage_update, mbind, M_bind, readQuery_GROUP.
  by rewrite Hdata, Hdup.
Qed.

Lemma createMessage_update_fresh (s : Store) (groupId : Z) (m : Message)
    (data : GroupResult) :
  groupQuery s !! groupId = Some data →
  isDuplicateMessage m (grp_messages (group data)) = false →
  createMessage_update groupId m s =
    (Returned None,
     {| groupQuery := <[groupId := set_group_messages data
                                     (m :: grp_messages (group data))]>
                        (groupQuery s);
        userQuery := userQuery s |}).
Proof.
  intros Hdata Hdup.
  unfold createMessage_update, mbind, M_bind, readQuery_GROUP.
  by rewrite Hdata, Hdup.
Qed.

Lemma cached_messages_fresh (s : Store) (groupId : Z) (m : Message)
    (data : GroupResult) :
  groupQuery s !! groupId = Some data →
  isDuplicateMessage m (grp_messages (group data)) = false →
  cached_messages (exec (createMessage_update groupId m) s) groupId =
    m :: grp_messages (group data).
Proof.
  intros Hdata Hdup. unfold exec.
  rewrite (createMessage_update_fresh _ _ _ _ Hdata Hdup).
  unfold cached_messages. simpl. by rewrite lookup_insert_eq.
Qed.

Lemma count_id_positive (i : option Z) (ms : list Message) :
  (0 < count_id i ms)%nat → i ∈ ids ms.
Proof.
  unfold count_id. destruct (filter _ ms) as [|m l] eqn:Hf; simpl; [lia|].
  intros _.
  assert (Hin : m ∈ filter (λ m0, msg_id m0 = i) ms)
    by (rewrite Hf; apply list_elem_of_here).
  apply list_elem_of_filter in Hin as [<- Hin].
  by apply (list_elem_of_fmap_2 doc_id).
Qed.

Lemma count_id_absent (i : option Z) (ms : list Message) :
  i ∉ ids ms → count_id i ms = 0%nat.
Proof.
  intros Hno. destruct (count_id i ms) as [|n] eqn:Hc; [done|].
  exfalso. apply Hno, count_id_positive. lia.
Qed.

(** C1: when the push event for the authoritative message has been
    written to the cached group result before the response of the mutation
    is processed, so that [group.messages] holds exactly one message with
    that id (42 in the spec), the [update] of [createMessage] finds the
    response to be a duplicate, returns without writing, and the cache
    still holds exactly one message with that id. *)
Theorem race_safety (s : Store) (groupId : Z) (createMessage : Message)
    (data : GroupResult) (i : Z) :
  msg_id createMessage = Some i →
  groupQuery s !! groupId = Some data →
  count_id (Some i) (grp_messages (group data)) = 1%nat →
  isDuplicateMessage createMessage (grp_messages (group data)) = true ∧
  createMessage_update groupId createMessage s = (Returned (Some data), s) ∧
  exec (createMessage_update groupId createMessage) s = s ∧
  count_id (Some i)
    (cached_messages (exec (createMessage_update groupId createMessage) s) groupId)
    = 1%nat.
Proof.
  intros Hid Hdata Hcount.
  assert (Hdup : isDuplicateMessage createMessage (grp_messages (group data)) = true).
  { rewrite isDuplicateMessage_Document. apply isDuplicateDocument_true.
    unfold doc_id at 1 2, Message_document. rewrite Hid. split; [done|].
    apply count_id_positive. lia. }
  pose proof (createMessage_update_duplicate _ _ _ _ Hdata Hdup) as Hupd.
  unfold exec. rewrite Hupd. simpl.
  repeat split; try done.
  unfold cached_messages. by rewrite Hdata.
Qed.

Lemma race_safety_witness :
  isDuplicateMessage authoritative [authoritative; hello] = true ∧
  exec (createMessage_update 1 authoritative) pushed_store = pushed_store ∧
  count_id (Some 42)
    (cached_messages (exec (createMessage_update 1 authoritative) pushed_store) 1)
    = 1%nat.
Proof.
  destruct (race_safety pushed_store 1 authoritative
              {| group := group_of (Some 1) "friends" [authoritative; hello] |} 42)
    as (Hdup & _ & Hexec & Hcount).
  - reflexivity.
  - reflexivity.
  - reflexivity.
  - split; [exact Hdup|]. split; [exact Hexec|exact Hcount].
Defined.

(** ** The mutation engine *)

Section EngineFacts.
Context {S R E : Type}.
Implicit Types (e : Engine.t S R) (p : Engine.Pending S R) (k : nat).

Lemma settle_absent k (ps : list (Engine.Pending S R)) :
  k ∉ map Engine.handle ps → Engine.settle k ps = ps.
Proof.
  unfold Engine.settle. induction ps as [|p ps IH]; [done|].
  simpl. intros Hno. apply not_elem_of_cons in Hno as [Hne Hno].
  rewrite filter_cons. destruct (decide (Engine.handle p ≠ k)) as [_|Heq].
  - by rewrite IH.
  - exfalso. apply Heq. congruence.
Qed.

Lemma settle_issued k (ps : list (Engine.Pending S R)) p :
  k ∉ map Engine.handle ps → Engine.handle p = k →
  Engine.settle k (ps ++ [p]) = ps.
Proof.
  intros Hno Hk. unfold Engine.settle. rewrite filter_app.
  fold (Engine.settle k ps). rewrite (settle_absent k ps Hno).
  rewrite filter_cons, filter_nil.
  destruct (decide (Engine.handle p ≠ k)); [done|]. by rewrite app_nil_r.
Qed.

Lemma find_pending_issued k (ps : list (Engine.Pending S R)) p :
  k ∉ map Engine.handle ps → Engine.handle p = k →
  Engine.find_pending k (ps ++ [p]) = Some p.
Proof.
  intros Hno Hk. unfold Engine.find_pending. rewrite filter_app.
  assert (Hnone : filter (λ q, Engine.handle q = k) ps = []).
  { clear Hk. induction ps as [|q ps IH]; [done|].
    simpl in Hno. apply not_elem_of_cons in Hno as [Hne Hno].
    rewrite filter_cons. destruct (decide (Engine.handle q = k)); [congruence|].
    by apply IH. }
  rewrite Hnone, filter_cons, filter_nil.
  by destruct (decide (Engine.handle p = k)).
Qed.

Lemma pushes_pending (fs : list (S → S)) e :
  Engine.pending (foldl (λ e f, Engine.push f e) e fs) = Engine.pending e.
Proof. revert e. induction fs as [|f fs IH]; intros e; [done|]. simpl. by rewrite IH. Qed.

Lemma pushes_base (fs : list (S → S)) e :
  Engine.base (foldl (λ e f, Engine.push f e) e fs) =
    foldl (λ s f, f s) (Engine.base e) fs.
Proof. revert e. induction fs as [|f fs IH]; intros e; [done|]. simpl. by rewrite IH. Qed.

Lemma settle_handles k e o :
  k ∉ Engine.handles (Engine.respond (E := E) k o e).1.
Proof.
  assert (Hgone : k ∉ map Engine.handle (Engine.settle k (Engine.pending e))).
  { unfold Engine.settle. intros Hin. apply list_elem_of_fmap in Hin as (q & Hq & Hin).
    apply list_elem_of_filter in Hin as [Hne _]. congruence. }
  unfold Engine.respond.
  destruct (Engine.find_pending k (Engine.pending e)) as [p|] eqn:Hfind.
  - by destruct o.
  - simpl. unfold Engine.handles, Engine.find_pending in *.
    intros Hin. apply list_elem_of_fmap in Hin as (q & Hq & Hin).
    assert (Hq' : q ∈ filter (λ p, Engine.handle p = k) (Engine.pending e))
      by (apply list_elem_of_filter; split; [done|done]).
    destruct (filter _ (Engine.pending e)); [by apply elem_of_nil in Hq'|done].
Qed.

(** C7: when a mutation issued with a speculative result fails, the
    caller's promise is rejected with the error, the request is no longer
    pending, and what the cache shows is what it would show had the
    mutation never been issued: the subscription events received in the
    meantime are kept, the speculative write is gone; with no event in
    between, the cache shows the value it held before the mutation was
    issued.  The caller ([create] of the finalize-group screen) reports the
    error it is handed. *)
Theorem reconciliation_failure e p (fs : list (S → S)) (err : E) :
  Engine.handle p ∉ Engine.handles e →
  let k := Engine.handle p in
  let issued := foldl (λ e f, Engine.push f e) (Engine.mutate p e) fs in
  let never_issued := foldl (λ e f, Engine.push f e) e fs in
  let failed := Engine.respond k (inr err) issued in
  (failed.2) = Some (Engine.Rejected err) ∧
  (k ∉ Engine.handles (failed.1)) ∧
  Engine.pending (failed.1) = Engine.pending e ∧
  Engine.base (failed.1) = Engine.base never_issued ∧
  Engine.view (failed.1) = Engine.view never_issued ∧
  (fs = [] → Engine.view (failed.1) = Engine.view e) ∧
  (∀ message : string,
     FinalizeGroup_create (Engine.Rejected message) =
       Alert_alert "Error Creating New Group" message).
Proof.
  intros Hfresh k issued never_issued failed.
  assert (Hpending : Engine.pending issued = Engine.pending e ++ [p]).
  { unfold issued. by rewrite pushes_pending. }
  assert (Hfailed : failed =
            ({| Engine.base := Engine.base issued;
                Engine.pending := Engine.pending e |},
             Some (Engine.Rejected err))).
  { unfold failed, Engine.respond. rewrite Hpending.
    rewrite (find_pending_issued k _ p Hfresh eq_refl).
    by rewrite (settle_issued k _ p Hfresh eq_refl). }
  assert (Hbase : Engine.base issued = Engine.base never_issued).
  { unfold issued, never_issued. by rewrite !pushes_base. }
  assert (Hview : Engine.view (failed.1) = Engine.view never_issued).
  { rewrite Hfailed. unfold Engine.view. simpl. rewrite Hbase.
    unfold never_issued. by rewrite pushes_pending. }
  split; [by rewrite Hfailed|]. split; [apply settle_handles|].
  split; [by rewrite Hfailed|]. split; [by rewrite Hfailed|].
  split; [done|]. split; [|done].
  intros ->. by rewrite Hview.
Qed.
End EngineFacts.

Lemma reconciliation_failure_witness :
  cached_messages (Engine.view (Engine.mutate send_hi idle_engine)) 1 =
    [optimisticResponse "hi" 1 "2017-06-01T00:00:01.000Z"; hello] ∧
  (Engine.respond (E := string) 0 (inr "Network request failed")
     (Engine.mutate send_hi idle_engine)).2 =
    Some (Engine.Rejected "Network request failed") ∧
  Engine.view
    (Engine.respond (E := string) 0 (inr "Network request failed")
       (Engine.mutate send_hi idle_engine)).1 = sample_store.
Proof.
  split; [reflexivity|].
  destruct (reconciliation_failure (E := string) idle_engine send_hi []
              "Network request failed") as (Hout & _ & _ & _ & _ & Hview & _).
  - apply not_elem_of_nil.
  - split; [exact Hout|]. exact (Hview eq_refl).
Defined.

(** C3: a [createMessage] issued with the speculative message of sentinel
    id [-1] shows that message in front of the cached ones while the
    request is pending; once the authoritative response (id 42 in the
    spec) is processed, the cached group result holds the authoritative
    message in front of the messages cached before the send, the request
    is settled, and the cache holds exactly one message with the
    authoritative id and none with the sentinel id. *)
Theorem optimistic_supersession (s : Store) (k : nat) (groupId : Z)
    (text now : string) (real : Message) (data : GroupResult) (i : Z) :
  groupQuery s !! groupId = Some data →
  msg_id real = Some i →
  i ≠ -1 →
  Some i ∉ ids (grp_messages (group data)) →
  sentinel ∉ ids (grp_messages (group data)) →
  let request := createMessage_request k text groupId now in
  let idle := {| Engine.base := s; Engine.pending := [] |} in
  let sent := Engine.mutate request idle in
  let done := Engine.respond (E := string) k (inl real) sent in
  cached_messages (Engine.view sent) groupId =
    optimisticResponse text groupId now :: grp_messages (group data) ∧
  (done.2) = Some (Engine.Resolved real) ∧
  Engine.pending (done.1) = [] ∧
  cached_messages (Engine.view (done.1)) groupId =
    real :: grp_messages (group data) ∧
  count_id (Some i) (cached_messages (Engine.view (done.1)) groupId) = 1%nat ∧
  count_id sentinel (cached_messages (Engine.view (done.1)) groupId) = 0%nat.
Proof.
  intros Hdata Hid Hserver Hfresh Hsentinel request idle sent done.
  assert (Hspec : isDuplicateMessage (optimisticResponse text groupId now)
                    (grp_messages (group data)) = false).
  { rewrite isDuplicateMessage_Document. apply isDuplicateDocument_false.
    by right. }
  assert (Hreal : isDuplicateMessage real (grp_messages (group data)) = false).
  { rewrite isDuplicateMessage_Document. apply isDuplicateDocument_false.
    right. unfold doc_id at 1, Message_document. by rewrite Hid. }
  assert (Hdone : done =
            ({| Engine.base := exec (createMessage_update groupId real) s;
                Engine.pending := [] |}, Some (Engine.Resolved real))).
  { unfold done, Engine.respond.
    change (Engine.pending sent) with ([] ++ [request]).
    rewrite (find_pending_issued k [] request); [|apply not_elem_of_nil|done].
    by rewrite (settle_issued k [] request); [|apply not_elem_of_nil|done]. }
  assert (Hview : cached_messages (Engine.view (done.1)) groupId =
                    real :: grp_messages (group data)).
  { rewrite Hdone. unfold Engine.view. simpl. by apply cached_messages_fresh. }
  split; [by apply cached_messages_fresh|].
  split; [by rewrite Hdone|]. split; [by rewrite Hdone|]. split; [done|].
  rewrite Hview. split.
  - unfold count_id. rewrite filter_cons.
    destruct (decide (msg_id real = Some i)); [|congruence].
    simpl. f_equal. apply (count_id_absent _ _ Hfresh).
  - unfold count_id. rewrite filter_cons.
    destruct (decide (msg_id real = sentinel)) as [Heq|].
    + unfold sentinel in Heq. congruence.
    + apply (count_id_absent _ _ Hsentinel).
Qed.

Lemma optimistic_supersession_witness :
  cached_messages (Engine.view (Engine.mutate send_hi idle_engine)) 1 =
    [optimisticResponse "hi" 1 "2017-06-01T00:00:01.000Z"; hello] ∧
  cached_messages
    (Engine.view (Engine.respond (E := string) 0 (inl authoritative)
                    (Engine.mutate send_hi idle_engine)).1) 1 =
    [authoritative; hello] ∧
  count_id (Some 42)
    (cached_messages
       (Engine.view (Engine.respond (E := string) 0 (inl authoritative)
                       (Engine.mutate send_hi idle_engine)).1) 1) = 1%nat ∧
  count_id sentinel
    (cached_messages
       (Engine.view (Engine.respond (E := string) 0 (inl authoritative)
                       (Engine.mutate send_hi idle_engine)).1) 1) = 0%nat.
Proof.
  destruct (optimistic_supersession sample_store 0 1 "hi"
              "2017-06-01T00:00:01.000Z" authoritative {| group := friends |} 42)
    as (Hsent & _ & _ & Hdone & Hcount & Hsentinel).
  - reflexivity.
  - reflexivity.
  - lia.
  - cbn. intros Hin. apply list_elem_of_singleton in Hin. discriminate.
  - cbn. intros Hin. apply list_elem_of_singleton in Hin. discriminate.
  - split; [exact Hsent|]. split; [exact Hdone|].
    split; [exact Hcount|exact Hsentinel].
Defined.

(** ** app.js *)

Lemma forEach_responses (rs : list Response) (b : bool) (w : World) :
  foldl forEach_response (b, w) rs =
    (b || existsb unauthorized rs,
     {| responses := responses w; dispatched := dispatched w;
        console := console w ++ omap errors rs; next_calls := next_calls w |}).
Proof.
  revert b w. induction rs as [|r rs IH]; intros b w.
  - simpl. rewrite orb_false_r, app_nil_r. by destruct w.
  - simpl. unfold forEach_response at 2, unauthorized at 1.
    destruct (errors r) as [errs|]; simpl.
    + destruct (some_message errs "Unauthorized"); rewrite IH; simpl;
        rewrite <- app_assoc; simpl;
        by rewrite ?orb_true_r, ?orb_true_l, ?orb_false_l.
    + by rewrite IH.
Qed.

(** C6: for every response batch the afterware dispatches [logout()]
    exactly once when at least one response carries an error whose message
    is 'Unauthorized', however many do, and not at all otherwise; it leaves
    every response of the batch as it was, logs the errors, and calls
    [next] once, so that each operation is settled from its own response. *)
Theorem batch_auth_short_circuit (w : World) :
  dispatched (applyBatchAfterware w) =
    dispatched w ++
      (if existsb unauthorized (responses w) then [logout] else []) ∧
  responses (applyBatchAfterware w) = responses w ∧
  next_calls (applyBatchAfterware w) = S (next_calls w) ∧
  console (applyBatchAfterware w) = console w ++ omap errors (responses w).
Proof.
  unfold applyBatchAfterware. rewrite forEach_responses. simpl.
  destruct (existsb unauthorized (responses w)); simpl;
    by rewrite ?app_nil_r.
Qed.

Lemma batch_auth_short_circuit_witness :
  dispatched (applyBatchAfterware
    (sample_world [ok_response; unauthorized_response; failed_response])) = [logout] ∧
  dispatched (applyBatchAfterware
    (sample_world [unauthorized_response; unauthorized_response;
                   unauthorized_response])) = [logout] ∧
  dispatched (applyBatchAfterware
    (sample_world [ok_response; failed_response])) = [] ∧
  responses (applyBatchAfterware
    (sample_world [ok_response; unauthorized_response; failed_response])) =
    [ok_response; unauthorized_response; failed_response].
Proof.
  split; [|split; [|split]].
  - apply (batch_auth_short_circuit
             (sample_world [ok_response; unauthorized_response; failed_response])).
  - apply (batch_auth_short_circuit
             (sample_world [unauthorized_response; unauthorized_response;
                            unauthorized_response])).
  - apply (batch_auth_short_circuit (sample_world [ok_response; failed_response])).
  - apply (batch_auth_short_circuit
             (sample_world [ok_response; unauthorized_response; failed_response])).
Defined.

Lemma network_snoc (steps : list NetStep) (start : ReduxState) (step : NetStep) :
  network start (steps ++ [step]) =
    network start steps ++ network (current start steps) [step].
Proof.
  revert start. induction steps as [|x steps IH]; intros start; [done|].
  destruct x; simpl; by rewrite IH.
Qed.

(** C8: the middleware and [connectionParams] read [auth.jwt] from the
    Redux state in force when they are called and keep nothing between
    calls.  A batch prepared after any sequence of store changes carries
    [Bearer <jwt>] for the jwt of that moment when it is present (and not
    the empty string); when it is absent the headers are those the request
    came with, so a request without an authorization header leaves without
    one.  Every connection attempt is given the jwt of that moment as its
    parameters, present or not. *)
Theorem credential_read_at_use (start : ReduxState) (before : list NetStep)
    (req : BatchRequest) :
  let now := current start before in
  network start (before ++ [PrepareBatch req]) =
    network start before ++ [BatchSent (applyBatchMiddleware now req)] ∧
  network start (before ++ [Connect]) =
    network start before ++ [ConnectionInit {| params_jwt := jwt (auth now) |}] ∧
  requests (applyBatchMiddleware now req) = requests req ∧
  (∀ token : string, jwt (auth now) = Some token → token ≠ "" →
     ∃ headers, options_headers (applyBatchMiddleware now req) = Some headers ∧
       headers !! "authorization" = Some ("Bearer " +:+ token) ∧
       ∀ name : string, name ≠ "authorization" →
         headers !! name = default ∅ (options_headers req) !! name) ∧
  (jwt (auth now) = None ∨ jwt (auth now) = Some "" →
     options_headers (applyBatchMiddleware now req) =
       Some (default ∅ (options_headers req)) ∧
     (options_headers req = None →
        options_headers (applyBatchMiddleware now req) = Some ∅)).
Proof.
  intros now. split; [|split; [|split; [|split]]].
  - by rewrite network_snoc.
  - by rewrite network_snoc.
  - done.
  - intros token Hjwt Hne. unfold applyBatchMiddleware. rewrite Hjwt. simpl.
    assert (Htruthy : negb (String.eqb token "") = true).
    { apply negb_true_iff. by apply String.eqb_neq. }
    rewrite Htruthy. eexists. split; [reflexivity|]. split.
    + apply lookup_insert_eq.
    + intros name Hname. by apply lookup_insert_ne.
  - intros Hjwt. unfold applyBatchMiddleware.
    assert (Hfalsy : truthy (jwt (auth now)) = false).
    { by destruct Hjwt as [->| ->]. }
    rewrite Hfalsy. simpl. split; [done|]. by intros ->.
Qed.

Lemma credential_read_at_use_witness :
  network signed_out
    [PrepareBatch bare_request; StoreChanged (signed_in "abc");
     PrepareBatch bare_request; Connect; StoreChanged signed_out;
     PrepareBatch bare_request; Connect] =
    [BatchSent {| requests := ["query user"]; options_headers := Some ∅ |};
     BatchSent {| requests := ["query user"];
                  options_headers := Some {[ "authorization" := "Bearer abc" ]} |};
     ConnectionInit {| params_jwt := Some "abc" |};
     BatchSent {| requests := ["query user"]; options_headers := Some ∅ |};
     ConnectionInit {| params_jwt := None |}] ∧
  (∃ headers,
     options_headers (applyBatchMiddleware (signed_in "abc") bare_request) =
       Some headers ∧
     headers !! "authorization" = Some "Bearer abc") ∧
  options_headers (applyBatchMiddleware signed_out bare_request) = Some ∅.
Proof.
  split; [|split].
  - pose proof (credential_read_at_use signed_out
      [PrepareBatch bare_request; StoreChanged (signed_in "abc");
       PrepareBatch bare_request; Connect; StoreChanged signed_out;
       PrepareBatch bare_request] bare_request) as (_ & Hconnect & _).
    exact Hconnect.
  - destruct (credential_read_at_use (signed_in "abc") [] bare_request)
      as (_ & _ & _ & Hpresent & _).
    destruct (Hpresent "abc" eq_refl) as (headers & Hh & Hauth & _); [done|].
    exists headers. split; [exact Hh|exact Hauth].
  - destruct (credential_read_at_use signed_out [] bare_request)
      as (_ & _ & _ & _ & Habsent).
    destruct (Habsent (or_introl eq_refl)) as [_ Hnone].
    exact (Hnone eq_refl).
Defined.

(** ** More on the mutation [update] functions *)

Lemma exec_removeGroup (s : Store) (removed_id : option Z) (data : UserResult) :
  userQuery s !! 1 = Some data →
  exec (removeGroup_update removed_id) s =
    {| groupQuery := groupQuery s;
       userQuery := <[1 := set_groups data
                       (filter (λ g, strict_eq removed_id (grp_id g) = false)
                               (usr_groups (user data)))]> (userQuery s) |}.
Proof.
  intros Hdata. unfold exec, removeGroup_update, mbind, M_bind, readQuery_USER.
  by rewrite Hdata.
Qed.

(** X1: the [update] of [deleteGroup] and [leaveGroup] rewrites the cached
    user result 1 so that no group with the removed id is left, keeps every
    other group in its order, leaves the [GROUP_QUERY] results alone (the
    removed group's own result stays cached), and doing it again changes
    nothing. *)
Theorem removeGroup_update_removes (s : Store) (removed_id : option Z)
    (data : UserResult) :
  userQuery s !! 1 = Some data →
  let s' := exec (removeGroup_update removed_id) s in
  ∃ data', userQuery s' !! 1 = Some data' ∧
    (removed_id ∉ ids (usr_groups (user data'))) ∧
    (∀ g, g ∈ usr_groups (user data') ↔
          g ∈ usr_groups (user data) ∧ grp_id g ≠ removed_id) ∧
    usr_groups (user data') `sublist_of` usr_groups (user data) ∧
    groupQuery s' = groupQuery s ∧
    exec (removeGroup_update removed_id) s' = s'.
Proof.
  intros Hdata s'. unfold s'. rewrite (exec_removeGroup _ _ _ Hdata).
  eexists. split; [simpl; apply lookup_insert_eq|].
  rewrite usr_groups_set_groups. split; [|split; [|split; [|split]]].
  - intros Hin. apply list_elem_of_fmap in Hin as (g & Hg & Hin).
    apply list_elem_of_filter in Hin as [Hne _].
    apply strict_eq_false in Hne. by apply Hne.
  - intros g. rewrite list_elem_of_filter, strict_eq_false.
    split; intros [? ?]; split; congruence.
  - apply sublist_filter.
  - done.
  - erewrite exec_removeGroup; [|simpl; apply lookup_insert_eq].
    cbn [groupQuery userQuery]. rewrite insert_insert_eq. do 2 f_equal.
    rewrite usr_groups_set_groups. unfold set_groups. cbn [user usr_id usr_email].
    do 2 f_equal. rewrite list_filter_filter. apply list_filter_iff. tauto.
Qed.

Lemma removeGroup_update_removes_witness :
  ∃ data', userQuery (exec (removeGroup_update (Some 1)) sample_store) !! 1 = Some data' ∧
    usr_groups (user data') = [] ∧
    groupQuery (exec (removeGroup_update (Some 1)) sample_store) =
      groupQuery sample_store.
Proof.
  destruct (removeGroup_update_removes sample_store (Some 1) cached_user eq_refl)
    as (data' & Hdata' & _ & _ & _ & Hframe & _).
  exists data'. split; [exact Hdata'|]. split; [|exact Hframe].
  assert (Heq : Some data' = Some (user_with [])) by (rewrite <- Hdata'; reflexivity).
  by injection Heq as ->.
Defined.



(** X3: once the [update] of [createMessage] has run for a message with a
    non-null id, running it for any message with the same id changes
    nothing, whatever that message's text: a response delivered twice is
    patched in once, and a second optimistic response (same sentinel id)
    is not shown while the first is in the cache. *)
Theorem createMessage_update_same_id (s : Store) (groupId : Z) (m1 m2 : Message) :
  msg_id m1 ≠ None →
  msg_id m2 = msg_id m1 →
  exec (createMessage_update groupId m2) (exec (createMessage_update groupId m1) s) =
    exec (createMessage_update groupId m1) s.
Proof.
  intros Hid Hsame.
  assert (Hdup : ∀ (t : Store) (d : GroupResult),
            groupQuery t !! groupId = Some d →
            msg_id m1 ∈ ids (grp_messages (group d)) →
            exec (createMessage_update groupId m2) t = t).
  { intros t d Hd Hin. unfold exec.
    rewrite (createMessage_update_duplicate t groupId m2 d Hd); [done|].
    rewrite isDuplicateMessage_Document. apply isDuplicateDocument_true.
    unfold doc_id at 1 2, Message_document. rewrite Hsame. done. }
  destruct (groupQuery s !! groupId) as [data|] eqn:Hdata.
  - destruct (isDuplicateMessage m1 (grp_messages (group data))) eqn:Hd.
    + unfold exec at 2 3.
      rewrite (createMessage_update_duplicate _ _ _ _ Hdata Hd). simpl.
      apply (Hdup s data Hdata).
      rewrite isDuplicateMessage_Document in Hd.
      by apply isDuplicateDocument_true in Hd as [_ ?].
    + unfold exec at 2 3.
      rewrite (createMessage_update_fresh _ _ _ _ Hdata Hd). simpl.
      eapply Hdup; [simpl; apply lookup_insert_eq|].
      simpl. apply list_elem_of_here.
  - assert (Hthrow : exec (createMessage_update groupId m1) s = s).
    { unfold exec, createMessage_update, mbind, M_bind, readQuery_GROUP.
      by rewrite Hdata. }
    rewrite Hthrow.
    unfold exec, createMessage_update, mbind, M_bind, readQuery_GROUP.
    by rewrite Hdata.
Qed.

Lemma createMessage_update_same_id_witness :
  cached_messages
    (exec (createMessage_update 1 (optimisticResponse "again" 1 "2017-06-01T00:00:02.000Z"))
       (exec (createMessage_update 1 (optimisticResponse "hi" 1 "2017-06-01T00:00:01.000Z"))
          sample_store)) 1 =
    [optimisticResponse "hi" 1 "2017-06-01T00:00:01.000Z"; hello].
Proof.
  rewrite (createMessage_update_same_id sample_store 1
             (optimisticResponse "hi" 1 "2017-06-01T00:00:01.000Z")
             (optimisticResponse "again" 1 "2017-06-01T00:00:02.000Z")).
  - reflexivity.
  - discriminate.
  - reflexivity.
Defined.

(** X4: the message screen lists the cached messages in reverse, so a
    message that the [update] of [createMessage] has just patched in is
    rendered last, after the messages rendered before, and its key is
    its id. *)
Theorem sent_message_rendered_last (s : Store) (groupId : Z) (m : Message)
    (data : GroupResult) :
  groupQuery s !! groupId = Some data →
  isDuplicateMessage m (grp_messages (group data)) = false →
  ∃ data', groupQuery (exec (createMessage_update groupId m) s) !! groupId = Some data' ∧
    Messages_render_data data' = Messages_render_data data ++ [m] ∧
    last (Messages_render_data data') = Some m ∧
    keyExtractor <$> Messages_render_data data' =
      (keyExtractor <$> Messages_render_data data) ++ [msg_id m].
Proof.
  intros Hdata Hd. unfold exec.
  rewrite (createMessage_update_fresh _ _ _ _ Hdata Hd). simpl.
  eexists. split; [apply lookup_insert_eq|].
  unfold Messages_render_data. simpl. rewrite reverse_cons.
  split; [done|]. split; [apply last_snoc|]. by rewrite fmap_app.
Qed.

Lemma sent_message_rendered_last_witness :
  ∃ data', groupQuery (exec (createMessage_update 1 again) sample_store) !! 1 = Some data' ∧
    Messages_render_data data' = [hello; again].
Proof.
  destruct (sent_message_rendered_last sample_store 1 again {| group := friends |})
    as (data' & Hdata' & Hrender & _).
  - reflexivity.
  - reflexivity.
  - exists data'. split; [exact Hdata'|exact Hrender].
Defined.

(** ** The selection screens *)

Section ArrayFacts.
Context {A : Type} `{EqDecision A}.
Implicit Types (l : list A) (x y : A).

Lemma indexOf_ref_from_absent (i : Z) l x :
  x ∉ l → indexOf_ref_from i l x = -1.
Proof.
  revert i. induction l as [|y l IH]; intros i Hx; [done|].
  apply not_elem_of_cons in Hx as [Hne Hx]. simpl.
  rewrite bool_decide_eq_false_2 by congruence. by apply IH.
Qed.

Lemma indexOf_ref_from_present (i : Z) l x :
  x ∈ l →
  ∃ n : nat, indexOf_ref_from i l x = i + Z.of_nat n ∧
             l !! n = Some x ∧ (x ∉ take n l).
Proof.
  revert i. induction l as [|y l IH]; intros i Hx.
  - by apply elem_of_nil in Hx.
  - simpl. destruct (decide (y = x)) as [->|Hne].
    + rewrite bool_decide_eq_true_2 by done. exists 0%nat.
      split; [lia|]. split; [done|apply not_elem_of_nil].
    + rewrite bool_decide_eq_false_2 by done.
      apply elem_of_cons in Hx as [->|Hx]; [done|].
      destruct (IH (i + 1) Hx) as (n & Hn & Hl & Hfirst).
      exists (S n). split; [lia|]. split; [done|].
      simpl. apply not_elem_of_cons. split; [congruence|done].
Qed.

Lemma indexOf_ref_absent l x : x ∉ l → indexOf_ref l x = -1.
Proof. apply indexOf_ref_from_absent. Qed.

Lemma indexOf_ref_present l x :
  x ∈ l →
  ∃ n : nat, indexOf_ref l x = Z.of_nat n ∧ l !! n = Some x ∧ (x ∉ take n l).
Proof.
  intros Hx. destruct (indexOf_ref_from_present 0 l x Hx) as (n & Hn & Hl & Hf).
  exists n. split; [unfold indexOf_ref; lia|done].
Qed.

(** [~indexOf] is truthy exactly for a member. *)
Lemma found_iff l x :
  truthy_number (bit_not (indexOf_ref l x)) = true ↔ x ∈ l.
Proof.
  unfold truthy_number, bit_not. rewrite negb_true_iff, Z.eqb_neq. split.
  - intros Hne. destruct (decide (x ∈ l)) as [|Hno]; [done|].
    rewrite (indexOf_ref_absent l x Hno) in Hne. done.
  - intros Hin. destruct (indexOf_ref_present l x Hin) as (n & -> & _).
    unfold Z.lnot. lia.
Qed.

Lemma splice_one_in_range l (n : nat) :
  (n < length l)%nat → splice_one (Z.of_nat n) l = delete n l.
Proof.
  intros Hn. unfold splice_one.
  destruct (Z.ltb_spec (Z.of_nat n) 0); [lia|].
  by rewrite Z.min_l, Nat2Z.id by lia.
Qed.

(** Removing the first occurrence. *)
Lemma splice_first l x (n : nat) :
  indexOf_ref l x = Z.of_nat n → l !! n = Some x → x ∉ take n l →
  splice_one (indexOf_ref l x) l = take n l ++ drop (S n) l ∧
  l = take n l ++ x :: drop (S n) l.
Proof.
  intros Hi Hl Hfirst. rewrite Hi, splice_one_in_range by (by eapply lookup_lt_Some).
  split; [apply delete_take_drop|].
  by rewrite <- (take_drop_middle l n x Hl) at 1.
Qed.

Lemma snoc_split_first l x (before after : list A) :
  x ∉ l → l ++ [x] = before ++ x :: after → x ∉ before →
  before = l ∧ after = [].
Proof.
  revert before. induction l as [|y l IH]; intros before Hno Hsel Hfirst.
  - destruct before as [|b before]; simpl in Hsel.
    + by injection Hsel as <-.
    + injection Hsel as <- Hsel. by destruct before.
  - apply not_elem_of_cons in Hno as [Hne Hno].
    destruct before as [|b before]; simpl in Hsel.
    + injection Hsel as <- _. done.
    + injection Hsel as <- Hsel. apply not_elem_of_cons in Hfirst as [_ Hfirst].
      by destruct (IH before Hno Hsel Hfirst) as [-> ->].
Qed.
End ArrayFacts.

Section NewGroupFacts.
Context {A : Type} `{EqDecision A}.
Implicit Types (st : NewGroup.State A) (c : NewGroup.Component A) (user : A).

Lemma NewGroup_toggle_selected user st :
  user ∈ NewGroup.selected st →
  ∃ before after,
    NewGroup.selected st = before ++ user :: after ∧ (user ∉ before) ∧
    NewGroup.toggle user st =
      {| NewGroup.selected := before ++ after; NewGroup.ds := before ++ after |}.
Proof.
  intros Hin. destruct (indexOf_ref_present _ _ Hin) as (n & Hi & Hl & Hfirst).
  destruct (splice_first _ _ n Hi Hl Hfirst) as [Hsplice Hsplit].
  exists (take n (NewGroup.selected st)), (drop (S n) (NewGroup.selected st)).
  split; [done|]. split; [done|].
  unfold NewGroup.toggle. rewrite (proj2 (found_iff _ _) Hin). by rewrite Hsplice.
Qed.

Lemma NewGroup_toggle_unselected user st :
  user ∉ NewGroup.selected st →
  NewGroup.toggle user st =
    {| NewGroup.selected := NewGroup.selected st ++ [user];
       NewGroup.ds := NewGroup.selected st ++ [user] |}.
Proof.
  intros Hno. unfold NewGroup.toggle.
  destruct (truthy_number _) eqn:Hfound; [|done].
  by apply found_iff in Hfound.
Qed.

(** X5: in the new-group screen, [isSelected] is truthy, and the cell of a
    user is blue, exactly when the user is in the selection. *)
Theorem NewGroup_isSelected_iff user st :
  (truthy_number (NewGroup.isSelected user st) = true ↔
     user ∈ NewGroup.selected st) ∧
  (NewGroup.Cell_backgroundColor user st = "blue" ↔
     user ∈ NewGroup.selected st) ∧
  (NewGroup.Cell_backgroundColor user st = "white" ↔
     user ∉ NewGroup.selected st).
Proof.
  unfold NewGroup.Cell_backgroundColor, NewGroup.isSelected.
  pose proof (found_iff (NewGroup.selected st) user) as Hfound.
  destruct (truthy_number _); split; [|split| |split];
    intuition (try discriminate; auto).
Qed.

(** X6: pressing the check button of a user in a duplicate-free selection
    leaves it duplicate-free, flips whether that user is selected, does
    not change whether any other user is, keeps the order of the others,
    and leaves the data source showing exactly the selection. *)
Theorem NewGroup_toggle_flips user st :
  NoDup (NewGroup.selected st) →
  let st' := NewGroup.toggle user st in
  NoDup (NewGroup.selected st') ∧
  (user ∈ NewGroup.selected st' ↔ user ∉ NewGroup.selected st) ∧
  (∀ other, other ≠ user →
     (other ∈ NewGroup.selected st' ↔ other ∈ NewGroup.selected st)) ∧
  filter (λ u, u ≠ user) (NewGroup.selected st') =
    filter (λ u, u ≠ user) (NewGroup.selected st) ∧
  NewGroup.ds st' = NewGroup.selected st'.
Proof.
  intros Hnd st'. unfold st'.
  destruct (decide (user ∈ NewGroup.selected st)) as [Hin|Hno].
  - destruct (NewGroup_toggle_selected user st Hin)
      as (before & after & Hsel & Hfirst & ->).
    rewrite Hsel in *. cbn [NewGroup.selected NewGroup.ds].
    apply NoDup_app in Hnd as (Hnb & Hdisj & Hna).
    apply NoDup_cons in Hna as [Hafter Hna].
    split; [|split; [|split; [|split]]].
    + apply NoDup_app. split; [done|]. split; [|done].
      intros x Hx Hx'. apply (Hdisj x Hx). by right.
    + split; [|intros Hn; exfalso; apply Hn; set_solver].
      rewrite elem_of_app. intros [?|?]; done.
    + intros other Hne. rewrite !elem_of_app, elem_of_cons. intuition congruence.
    + rewrite !filter_app, filter_cons.
      by destruct (decide (user ≠ user)).
    + done.
  - rewrite (NewGroup_toggle_unselected user st Hno).
    cbn [NewGroup.selected NewGroup.ds].
    split; [|split; [|split; [|split]]].
    + apply NoDup_app. split; [done|]. split; [|apply NoDup_singleton].
      intros x Hx Hx'. apply list_elem_of_singleton in Hx' as ->. done.
    + split; [done|]. intros _. apply elem_of_app. right.
      by apply list_elem_of_singleton.
    + intros other Hne. rewrite elem_of_app, list_elem_of_singleton.
      intuition congruence.
    + rewrite filter_app, filter_cons, filter_nil.
      destruct (decide (user ≠ user)); [done|]. by rewrite app_nil_r.
    + done.
Qed.

(** X7: pressing the check button of an unselected user twice gives back
    the selection as it was; for a selected user of a duplicate-free
    selection it gives back the same users, with that user moved to the
    end. *)
Theorem NewGroup_toggle_twice user st :
  NoDup (NewGroup.selected st) →
  let twice := NewGroup.toggle user (NewGroup.toggle user st) in
  NewGroup.selected twice ≡ₚ NewGroup.selected st ∧
  (user ∉ NewGroup.selected st → NewGroup.selected twice = NewGroup.selected st) ∧
  (user ∈ NewGroup.selected st →
     NewGroup.selected twice =
       filter (λ u, u ≠ user) (NewGroup.selected st) ++ [user]).
Proof.
  intros Hnd twice. unfold twice.
  destruct (decide (user ∈ NewGroup.selected st)) as [Hin|Hno].
  - destruct (NewGroup_toggle_selected user st Hin)
      as (before & after & Hsel & Hfirst & ->).
    rewrite Hsel in *.
    apply NoDup_app in Hnd as (Hnb & Hdisj & Hna).
    apply NoDup_cons in Hna as [Hafter Hna].
    assert (Hgone : user ∉ before ++ after).
    { rewrite elem_of_app. intros [?|?]; done. }
    rewrite NewGroup_toggle_unselected by done.
    cbn [NewGroup.selected].
    assert (Hkeep : ∀ l : list A, user ∉ l → filter (λ u, u ≠ user) l = l).
    { intros l Hl. induction l as [|y l IH]; [done|].
      apply not_elem_of_cons in Hl as [Hne Hl]. rewrite filter_cons.
      destruct (decide (y ≠ user)) as [|Hnn]; [by rewrite IH|].
      exfalso. apply Hnn. congruence. }
    split; [|split; [done|]].
    + rewrite <- app_assoc. apply Permutation_app_head.
      symmetry. apply Permutation_cons_append.
    + intros _. rewrite filter_app, filter_cons.
      destruct (decide (user ≠ user)); [done|].
      by rewrite !Hkeep.
  - rewrite (NewGroup_toggle_unselected user st Hno).
    assert (Hin : user ∈ NewGroup.selected
              {| NewGroup.selected := NewGroup.selected st ++ [user];
                 NewGroup.ds := NewGroup.selected st ++ [user] |}).
    { cbn. apply elem_of_app. right. by apply list_elem_of_singleton. }
    destruct (NewGroup_toggle_selected user _ Hin)
      as (before & after & Hsel & Hfirst & ->).
    cbn [NewGroup.selected] in *.
    destruct (snoc_split_first _ _ _ _ Hno Hsel Hfirst) as [-> ->].
    rewrite app_nil_r.
    split; [done|]. split; [done|]. intros Hin'. done.
Qed.
End NewGroupFacts.

Lemma isReady_mode (m : option string) :
  isReady (Some {| mode := m |}) = true ↔ m = Some "ready".
Proof. unfold isReady. simpl. apply bool_decide_eq_true. Qed.

Lemma truthy_length {A : Type} (l : list A) :
  truthy_number (Z.of_nat (length l)) = true ↔ l ≠ [].
Proof.
  unfold truthy_number. rewrite negb_true_iff, Z.eqb_neq.
  destruct l; simpl; split; intros; try done; lia.
Qed.

Section NewGroupReady.
Context {A : Type} `{EqDecision A}.
Implicit Types (c : NewGroup.Component A).

Lemma NewGroup_refresh_same (l k : list A) :
  truthy_number (Z.of_nat (length l)) = truthy_number (Z.of_nat (length k)) →
  NewGroup.refreshNavigation l = NewGroup.refreshNavigation k.
Proof. unfold NewGroup.refreshNavigation. by intros ->. Qed.

Lemma NewGroup_setState_params (nextState : NewGroup.State A) c :
  NewGroup.params c = NewGroup.refreshNavigation (NewGroup.selected (NewGroup.state c)) →
  NewGroup.params (NewGroup.setState nextState c) =
    NewGroup.refreshNavigation (NewGroup.selected nextState).
Proof.
  intros Hc. unfold NewGroup.setState, NewGroup.componentWillUpdate. simpl.
  destruct (eqb _ _) eqn:Heq; simpl; [|done].
  apply eqb_prop in Heq. rewrite Hc. by apply NewGroup_refresh_same.
Qed.

Lemma NewGroup_events_params (events : list (NewGroup.Event A)) c :
  NewGroup.params c = NewGroup.refreshNavigation (NewGroup.selected (NewGroup.state c)) →
  let c' := foldl NewGroup.handle c events in
  NewGroup.params c' = NewGroup.refreshNavigation (NewGroup.selected (NewGroup.state c')).
Proof.
  revert c. induction events as [|e events IH]; intros c Hc; [done|].
  simpl. apply IH. destruct e; by apply NewGroup_setState_params.
Qed.

(** X8: in the new-group screen, after the component is mounted and after
    any sequence of presses on check buttons and of new props, the route
    is in ['ready'] mode, so that the Next button is offered, exactly
    when at least one user is selected. *)
Theorem NewGroup_ready_iff_selection (params_selected : option (list A))
    (events : list (NewGroup.Event A)) :
  isReady (NewGroup.params
             (foldl NewGroup.handle (NewGroup.mount params_selected) events))
    = true ↔
  NewGroup.selected
    (NewGroup.state
       (foldl NewGroup.handle (NewGroup.mount params_selected) events)) ≠ [].
Proof.
  rewrite (NewGroup_events_params events (NewGroup.mount params_selected)) by done.
  unfold NewGroup.refreshNavigation. rewrite isReady_mode.
  rewrite <- truthy_length. destruct (truthy_number _); split; congruence.
Qed.
End NewGroupReady.

Section FinalizeGroupFacts.
Context {A : Type} `{EqDecision A}.
Implicit Types (st : FinalizeGroup.State A) (c : FinalizeGroup.Component A) (user : A).

(** X9: [remove] in the finalize-group screen takes out the first
    occurrence of the user and nothing else, keeps the typed name, and
    hands the shortened list to the data source; for a user that is not
    selected it does not call [setState] at all. *)
Theorem FinalizeGroup_remove_first user st :
  (user ∉ FinalizeGroup.selected st → FinalizeGroup.remove user st = None) ∧
  (user ∈ FinalizeGroup.selected st →
     ∃ before after,
       FinalizeGroup.selected st = before ++ user :: after ∧
       (user ∉ before) ∧
       FinalizeGroup.remove user st =
         Some {| FinalizeGroup.selected := before ++ after;
                 FinalizeGroup.ds := before ++ after;
                 FinalizeGroup.name := FinalizeGroup.name st |}).
Proof.
  split.
  - intros Hno. unfold FinalizeGroup.remove.
    destruct (truthy_number _) eqn:Hfound; [|done].
    by apply found_iff in Hfound.
  - intros Hin. destruct (indexOf_ref_present _ _ Hin) as (n & Hi & Hl & Hfirst).
    destruct (splice_first _ _ n Hi Hl Hfirst) as [Hsplice Hsplit].
    exists (take n (FinalizeGroup.selected st)), (drop (S n) (FinalizeGroup.selected st)).
    split; [done|]. split; [done|].
    unfold FinalizeGroup.remove.
    rewrite (proj2 (found_iff _ _) Hin). by rewrite Hsplice.
Qed.

Lemma FinalizeGroup_setState_inv (nextState : FinalizeGroup.State A) c :
  FinalizeGroup_inv c →
  FinalizeGroup.ds nextState = FinalizeGroup.selected nextState →
  FinalizeGroup_inv (FinalizeGroup.setState nextState c).
Proof.
  intros [Hp _] Hds. split; [|done].
  unfold FinalizeGroup.setState, FinalizeGroup.componentWillUpdate. simpl.
  case_bool_decide as Hne; [done|]. by rewrite Hne.
Qed.

Lemma FinalizeGroup_act_inv c (a : FinalizeGroup.Action A) :
  FinalizeGroup_inv c → FinalizeGroup_inv (FinalizeGroup.act c a).
Proof.
  intros Hc. destruct a as [user|text]; simpl.
  - destruct (FinalizeGroup.remove user (FinalizeGroup.state c)) as [next|] eqn:Hr;
      [|done].
    apply FinalizeGroup_setState_inv; [done|].
    unfold FinalizeGroup.remove in Hr.
    destruct (truthy_number _); [|done]. by injection Hr as <-.
  - apply FinalizeGroup_setState_inv; [done|]. simpl. apply Hc.
Qed.

Lemma FinalizeGroup_acts_inv (actions : list (FinalizeGroup.Action A)) c :
  FinalizeGroup_inv c → FinalizeGroup_inv (foldl FinalizeGroup.act c actions).
Proof.
  revert c. induction actions as [|a actions IH]; intros c Hc; [done|].
  simpl. apply IH. by apply FinalizeGroup_act_inv.
Qed.

(** X10: in the finalize-group screen, after the component is mounted
    and after any sequence of removals and edits of the subject, the
    route is in ['ready'] mode, so that the Create button is offered,
    exactly when at least one user is selected and the subject is a
    non-empty string; and the data source shows exactly the selection. *)
Theorem FinalizeGroup_ready_iff (params_selected : list A)
    (actions : list (FinalizeGroup.Action A)) :
  let c := foldl FinalizeGroup.act (FinalizeGroup.mount params_selected) actions in
  (isReady (FinalizeGroup.params c) = true ↔
     FinalizeGroup.selected (FinalizeGroup.state c) ≠ [] ∧
     ∃ s, FinalizeGroup.name (FinalizeGroup.state c) = Some s ∧ s ≠ "") ∧
  FinalizeGroup.ds (FinalizeGroup.state c) =
    FinalizeGroup.selected (FinalizeGroup.state c).
Proof.
  intros c.
  destruct (FinalizeGroup_acts_inv actions (FinalizeGroup.mount params_selected))
    as [Hp Hds]; [done|].
  fold c in Hp, Hds. split; [|done].
  rewrite Hp. unfold FinalizeGroup.refreshNavigation. rewrite isReady_mode.
  unfold FinalizeGroup.ready_value.
  pose proof (truthy_length (FinalizeGroup.selected (FinalizeGroup.state c))) as Hlen.
  destruct (truthy_number (Z.of_nat (length _))) eqn:Ht.
  - destruct (FinalizeGroup.name (FinalizeGroup.state c)) as [s|]; simpl.
    + destruct (String.eqb_spec s ""); simpl.
      * split; [done|]. intros (_ & s' & Hs' & Hne). congruence.
      * split; [|done]. intros _. split; [by apply Hlen|eauto].
    + split; [done|]. by intros (_ & s' & Hs' & _).
  - simpl. rewrite Ht. split; [done|]. intros [Hsel _]. apply Hlen in Hsel. done.
Qed.
End FinalizeGroupFacts.

Lemma NewGroup_toggle_flips_witness :
  NewGroup.selected (NewGroup.toggle 7%nat {| NewGroup.selected := [3; 7; 5]%nat;
                                              NewGroup.ds := [3; 7; 5]%nat |}) =
    [3; 5]%nat ∧
  NewGroup.selected (NewGroup.toggle 9%nat {| NewGroup.selected := [3; 7; 5]%nat;
                                              NewGroup.ds := [3; 7; 5]%nat |}) =
    [3; 7; 5; 9]%nat ∧
  NoDup (NewGroup.selected
           (NewGroup.toggle 7%nat {| NewGroup.selected := [3; 7; 5]%nat;
                                     NewGroup.ds := [3; 7; 5]%nat |})).
Proof.
  split; [reflexivity|]. split; [reflexivity|].
  apply (NewGroup_toggle_flips 7%nat
           {| NewGroup.selected := [3; 7; 5]%nat; NewGroup.ds := [3; 7; 5]%nat |}).
  cbn. apply (NoDup_ListNoDup [3; 7; 5]%nat). repeat constructor; cbn; lia.
Defined.

Lemma NewGroup_toggle_twice_witness :
  NewGroup.selected
    (NewGroup.toggle 7%nat
       (NewGroup.toggle 7%nat {| NewGroup.selected := [3; 7; 5]%nat;
                                 NewGroup.ds := [3; 7; 5]%nat |})) ≡ₚ [3; 7; 5]%nat ∧
  NewGroup.selected
    (NewGroup.toggle 7%nat
       (NewGroup.toggle 7%nat {| NewGroup.selected := [3; 7; 5]%nat;
                                 NewGroup.ds := [3; 7; 5]%nat |})) = [3; 5; 7]%nat.
Proof.
  split; [|reflexivity].
  apply (NewGroup_toggle_twice 7%nat
           {| NewGroup.selected := [3; 7; 5]%nat; NewGroup.ds := [3; 7; 5]%nat |}).
  cbn. apply (NoDup_ListNoDup [3; 7; 5]%nat). repeat constructor; cbn; lia.
Defined.

Lemma FinalizeGroup_remove_first_witness :
  FinalizeGroup.remove 4%nat (FinalizeGroup.constructor [3; 7]%nat) = None ∧
  ∃ before after,
    [3; 7; 3]%nat = before ++ 3%nat :: after ∧
    FinalizeGroup.remove 3%nat (FinalizeGroup.constructor [3; 7; 3]%nat) =
      Some {| FinalizeGroup.selected := before ++ after;
              FinalizeGroup.ds := before ++ after;
              FinalizeGroup.name := None |}.
Proof.
  split.
  - apply (FinalizeGroup_remove_first 4%nat (FinalizeGroup.constructor [3; 7]%nat)).
    cbn. intros Hin. apply elem_of_cons in Hin as [Hin|Hin]; [discriminate|].
    apply list_elem_of_singleton in Hin. discriminate.
  - destruct (FinalizeGroup_remove_first 3%nat
                (FinalizeGroup.constructor [3; 7; 3]%nat)) as [_ Hin].
    destruct Hin as (before & after & Hsel & _ & Hremove).
    + cbn. apply list_elem_of_here.
    + exists before, after. split; [exact Hsel|exact Hremove].
Defined.

(** ** The subscriptions of [AppWithNavigationState] *)

Module AppFacts.
Import AppWithNavigationState.

Lemma active_call_if_set (field : option nat) (ch : Channel) (h : nat) :
  h ∈ active (call_if_set field ch) ↔ h ∈ active ch ∧ field ≠ Some h.
Proof.
  destruct field as [k|]; simpl.
  - rewrite elem_of_difference, elem_of_singleton.
    split; intros [? ?]; split; congruence.
  - split; [by intros ?|by intros [? _]].
Qed.

Lemma opened_call_if_set (field : option nat) (ch : Channel) :
  opened (call_if_set field ch) = opened ch.
Proof. by destruct field. Qed.

Lemma wired_call_if_set (field g m : option nat) (ch : Channel) :
  wired g m ch → wired g m (call_if_set field ch).
Proof.
  intros (Hm & Hg & Ha & Ho & Honce). unfold wired.
  rewrite opened_call_if_set. repeat split; try done.
  - apply (Ha h t); [|done]. by apply active_call_if_set in H as [? _].
  - apply (Ha h t); [|done]. by apply active_call_if_set in H as [? _].
  - intros h Hh. apply Ho. by apply active_call_if_set in Hh as [? _].
Qed.

(** Once the stored function has been called, no message subscription is
    active. *)
Lemma no_messages_after_call (g m : option nat) (ch : Channel) (h : nat) (t : Topic) :
  wired g m ch →
  h ∈ active (call_if_set m ch) → opened ch !! h = Some t → ¬ is_messages t.
Proof.
  intros (_ & _ & Ha & _ & _) Hh Ht Hmsg.
  apply active_call_if_set in Hh as [Hh Hne].
  by destruct (Ha h t Hh Ht) as [Hstored _]; specialize (Hstored Hmsg).
Qed.

Lemma wired_subscribe_messages (g m : option nat) (ch : Channel)
    (groupIds : list (option Z)) :
  wired g m ch →
  (∀ h t, h ∈ active ch → opened ch !! h = Some t → ¬ is_messages t) →
  wired g (Some (subscribeToMore (MessageAddedTopic groupIds) ch).1)
        (subscribeToMore (MessageAddedTopic groupIds) ch).2.
Proof.
  intros (Hm & Hg & Ha & Ho & Honce) Hnone. unfold wired, subscribeToMore. simpl.
  split; [|split; [|split; [|split]]].
  - intros h [= <-]. exists groupIds. by rewrite lookup_app_r, Nat.sub_diag.
  - intros h Hh. destruct (Hg h Hh) as [u Hu]. exists u.
    rewrite lookup_app_l; [done|]. by eapply lookup_lt_Some.
  - intros h t Hh Ht. apply elem_of_union in Hh as [Hh|Hh].
    + apply elem_of_singleton in Hh as ->.
      rewrite lookup_app_r, Nat.sub_diag in Ht by done.
      injection Ht as <-. split; [done|]. by intros [].
    + pose proof (Ho h Hh) as Hlt. rewrite lookup_app_l in Ht by done.
      split; [intros Hmsg; by destruct (Hnone h t Hh Ht)|].
      by apply (Ha h t Hh Ht).
  - intros h Hh. rewrite length_app. simpl.
    apply elem_of_union in Hh as [Hh|Hh].
    + apply elem_of_singleton in Hh as ->. lia.
    + pose proof (Ho h Hh). lia.
  - intros h u Hu. apply (Honce h u).
    destruct (decide (h < length (opened ch))%nat) as [Hlt|Hge].
    + by rewrite lookup_app_l in Hu.
    + rewrite lookup_app_r in Hu by lia.
      destruct (h - length (opened ch))%nat; [done|]. simpl in Hu.
      by rewrite lookup_nil in Hu.
Qed.

Lemma wired_subscribe_groups (m : option nat) (ch : Channel) (userId : option Z) :
  wired None m ch →
  wired (Some (subscribeToMore (GroupAddedTopic userId) ch).1) m
        (subscribeToMore (GroupAddedTopic userId) ch).2.
Proof.
  intros (Hm & Hg & Ha & Ho & Honce). unfold wired, subscribeToMore. simpl.
  split; [|split; [|split; [|split]]].
  - intros h Hh. destruct (Hm h Hh) as [x Hx]. exists x.
    rewrite lookup_app_l; [done|]. by eapply lookup_lt_Some.
  - intros h [= <-]. exists userId. by rewrite lookup_app_r, Nat.sub_diag.
  - intros h t Hh Ht. apply elem_of_union in Hh as [Hh|Hh].
    + apply elem_of_singleton in Hh as ->.
      rewrite lookup_app_r, Nat.sub_diag in Ht by done.
      injection Ht as <-. split; [by intros []|done].
    + pose proof (Ho h Hh) as Hlt. rewrite lookup_app_l in Ht by done.
      destruct (Ha h t Hh Ht) as [Hmsg Hgrp]. split; [done|].
      intros Hgr. by specialize (Hgrp Hgr).
  - intros h Hh. rewrite length_app. simpl.
    apply elem_of_union in Hh as [Hh|Hh].
    + apply elem_of_singleton in Hh as ->. lia.
    + pose proof (Ho h Hh). lia.
  - intros h u Hu.
    destruct (decide (h < length (opened ch))%nat) as [Hlt|Hge].
    + rewrite lookup_app_l in Hu by done. by specialize (Honce h u Hu).
    + rewrite lookup_app_r in Hu by lia.
      destruct (h - length (opened ch))%nat eqn:Hd; simpl in Hu.
      * f_equal. lia.
      * by rewrite lookup_nil in Hu.
Qed.
End AppFacts.

Module AppInvariant.
Import AppWithNavigationState AppFacts.

Lemma groups_step_inv (next : option User) (this : Instance) (ch : Channel)
    (P : list (option Z) → Prop) :
  wired (groupSubscription this) (messagesSubscription this) ch →
  counted P ch →
  let st := when_no_group_subscription next this ch in
  wired (groupSubscription st.1) (messagesSubscription st.1) st.2 ∧
  counted P st.2 ∧ props_user st.1 = props_user this.
Proof.
  intros Hw HP. unfold when_no_group_subscription.
  destruct (groupSubscription this) as [g|] eqn:Hg; [simpl; by rewrite Hg|].
  destruct next as [next|]; [|simpl; by rewrite Hg]. simpl.
  split; [by apply wired_subscribe_groups|]. split; [|done].
  intros h groupIds Hh Ht. destruct Hw as (_ & _ & _ & Ho & _).
  simpl in Hh, Ht. apply elem_of_union in Hh as [Hh|Hh].
  - apply elem_of_singleton in Hh as ->.
    by rewrite lookup_app_r, Nat.sub_diag in Ht.
  - pose proof (Ho h Hh). rewrite lookup_app_l in Ht by done. by eapply HP.
Qed.

Lemma messages_step_inv (next : User) (this : Instance) (ch : Channel) :
  wired (groupSubscription this) (messagesSubscription this) ch →
  (∀ h groupIds, h ∈ active ch →
     opened ch !! h = Some (MessageAddedTopic groupIds) →
     ∃ current, props_user this = Some current ∧
       length groupIds = length (usr_groups current) ∧
       usr_groups current ≠ []) →
  let st := when_groups_changed (Some next) this ch in
  wired (groupSubscription st.1) (messagesSubscription st.1) st.2 ∧
  counted (λ groupIds, length groupIds = length (usr_groups next) ∧
                       usr_groups next ≠ []) st.2.
Proof.
  intros Hw Hcount. unfold when_groups_changed.
  destruct (match props_user this with None => true | Some _ => _ end) eqn:Hchanged.
  - destruct (truthy_number (Z.of_nat (length (usr_groups next)))) eqn:Hlen; simpl.
    + split.
      * apply (wired_subscribe_messages _ (messagesSubscription this)).
        -- by apply wired_call_if_set.
        -- intros h t Hh Ht. rewrite opened_call_if_set in Ht.
           by eapply no_messages_after_call.
      * intros h groupIds Hh Ht. simpl in Hh, Ht.
        apply elem_of_union in Hh as [Hh|Hh].
        -- apply elem_of_singleton in Hh as ->.
           rewrite lookup_app_r, Nat.sub_diag in Ht by done.
           injection Ht as <-. split; [apply length_fmap|].
           by apply truthy_length.
        -- exfalso.
           assert (Hlt : (h < length (opened (call_if_set (messagesSubscription this) ch)))%nat).
           { destruct (wired_call_if_set (messagesSubscription this) _ _ _ Hw)
               as (_ & _ & _ & Ho & _). by apply Ho. }
           rewrite lookup_app_l in Ht by done.
           rewrite opened_call_if_set in Ht.
           by apply (no_messages_after_call _ _ _ _ _ Hw Hh Ht).
    + split; [by apply wired_call_if_set|].
      intros h groupIds Hh Ht. exfalso.
      rewrite opened_call_if_set in Ht.
      by apply (no_messages_after_call _ _ _ _ _ Hw Hh Ht).
  - simpl. split; [done|].
    intros h groupIds Hh Ht.
    destruct (Hcount h groupIds Hh Ht) as (current & Hcur & Hlen & Hne).
    rewrite Hcur in Hchanged. apply negb_false_iff, Z.eqb_eq in Hchanged.
    split; [lia|]. intros Hnil. apply Hne.
    rewrite Hnil in Hchanged. simpl in Hchanged.
    destruct (usr_groups current); [done|simpl in Hchanged; lia].
Qed.

Lemma receive_inv (st : Instance * Channel) (nextProps_user : option User) :
  inv st → inv (receive st nextProps_user).
Proof.
  destruct st as [this ch]. intros (Hw & Hcount & Hout). simpl in *.
  unfold receive, componentWillReceiveProps. cbn [fst snd].
  destruct nextProps_user as [next|].
  - (* a user *)
    change (when_signed_out (Some next) this ch) with (this, ch). cbn [fst snd].
    destruct (messages_step_inv next this ch Hw Hcount) as [Hw2 HP2].
    destruct (groups_step_inv (Some next) _ _ _ Hw2 HP2) as (Hw3 & HP3 & _).
    split; [done|]. split; [|done].
    intros h groupIds Hh Ht. exists next. split; [done|]. by eapply HP3.
  - (* no user *)
    unfold when_signed_out, when_groups_changed. cbn [fst snd].
    assert (Hw' : wired (groupSubscription this) (messagesSubscription this)
                    (call_if_set (messagesSubscription this)
                       (call_if_set (groupSubscription this) ch))).
    { by do 2 apply wired_call_if_set. }
    assert (Hempty : active (call_if_set (messagesSubscription this)
                               (call_if_set (groupSubscription this) ch)) = ∅).
    { apply elem_of_equiv_empty_L. intros h Hh.
      apply active_call_if_set in Hh as [Hh Hm].
      apply active_call_if_set in Hh as [Hh Hg].
      destruct Hw as (_ & _ & Ha & Ho & _).
      destruct (lookup_lt_is_Some_2 _ _ (Ho h Hh)) as [t Ht].
      destruct (Ha h t Hh Ht) as [Hmsg Hgrp].
      destruct t; [by apply Hm, Hmsg|by apply Hg, Hgrp]. }
    assert (Hthird : ∀ c, when_no_group_subscription None this c = (this, c)).
    { intros c. unfold when_no_group_subscription.
      by destruct (groupSubscription this). }
    rewrite Hthird. cbn [fst snd].
    split; [done|]. split; [|done].
    intros h groupIds Hh. cbn [snd] in Hh. by rewrite Hempty in Hh.
Qed.

Lemma mounted_inv (user : option User) : inv (mounted user).
Proof.
  split; [|split; [|done]].
  - unfold wired. simpl. repeat split; try done.
    all: intros h; try intros t; rewrite ?lookup_nil; try done.
    all: intros Hh; by apply elem_of_empty in Hh.
  - intros h groupIds Hh. by apply elem_of_empty in Hh.
Qed.

Lemma received_inv (history : list (option User)) (st : Instance * Channel) :
  inv st → inv (foldl receive st history).
Proof.
  revert st. induction history as [|p history IH]; intros st Hst; [done|].
  simpl. apply IH. by apply receive_inv.
Qed.
End AppInvariant.

Module AppTheorems.
Import AppWithNavigationState AppFacts AppInvariant.

(** X11: from the mounted component and through any sequence of new
    props, at most one message subscription and at most one group
    subscription are active; without a user nothing is active; and an
    active message subscription was opened for as many groups as the
    current user has, which is at least one. *)
Theorem subscriptions_kept (user : option User) (history : list (option User)) :
  let st := foldl receive (mounted user) history in
  (∀ h h' t t', h ∈ active st.2 → h' ∈ active st.2 →
     opened st.2 !! h = Some t → opened st.2 !! h' = Some t' →
     (is_messages t ∧ is_messages t') ∨ (is_groups t ∧ is_groups t') →
     h = h') ∧
  (props_user st.1 = None → active st.2 = ∅) ∧
  (∀ h groupIds, h ∈ active st.2 →
     opened st.2 !! h = Some (MessageAddedTopic groupIds) →
     ∃ current, props_user st.1 = Some current ∧
       length groupIds = length (usr_groups current) ∧
       usr_groups current ≠ []).
Proof.
  intros st.
  destruct (received_inv history (mounted user) (mounted_inv user))
    as ((_ & _ & Ha & _ & _) & Hcount & Hout).
  fold st in Ha, Hcount, Hout. split; [|done].
  intros h h' t t' Hh Hh' Ht Ht' [[Hm Hm']|[Hg Hg']].
  - destruct (Ha h t Hh Ht) as [H1 _]. destruct (Ha h' t' Hh' Ht') as [H2 _].
    specialize (H1 Hm). specialize (H2 Hm'). congruence.
  - destruct (Ha h t Hh Ht) as [_ H1]. destruct (Ha h' t' Hh' Ht') as [_ H2].
    specialize (H1 Hg). specialize (H2 Hg'). congruence.
Qed.

Lemma group_field_kept (st : Instance * Channel) (next : option User) (g : nat) :
  inv st → groupSubscription st.1 = Some g → g ∉ active st.2 →
  groupSubscription (receive st next).1 = Some g ∧ g ∉ active (receive st next).2.
Proof.
  destruct st as [this ch]. intros ((_ & Hgw & _ & _ & _) & _ & _) Hg Hno.
  simpl in *. destruct (Hgw g Hg) as [u Hu].
  pose proof (lookup_lt_Some _ _ _ Hu) as Hlt.
  unfold receive, componentWillReceiveProps. cbn [fst snd].
  assert (Hthird : ∀ (i : Instance) (c : Channel),
            groupSubscription i = Some g →
            when_no_group_subscription next i c = (i, c)).
  { intros i c Hi. unfold when_no_group_subscription. by rewrite Hi. }
  destruct next as [next|].
  - change (when_signed_out (Some next) this ch) with (this, ch). cbn [fst snd].
    unfold when_groups_changed.
    destruct (match props_user this with None => true | Some _ => _ end).
    + destruct (truthy_number _); cbn [fst snd].
      * rewrite Hthird by done. cbn. split; [done|].
        rewrite opened_call_if_set.
        rewrite elem_of_union, elem_of_singleton, active_call_if_set.
        intros [->|[? _]]; [lia|done].
      * rewrite Hthird by done. cbn [fst snd]. split; [done|].
        rewrite active_call_if_set. by intros [? _].
    + rewrite Hthird by done. done.
  - unfold when_signed_out, when_groups_changed. cbn [fst snd].
    rewrite Hthird by done. cbn [fst snd]. split; [done|].
    rewrite !active_call_if_set. by intros [[? _] _].
Qed.

Lemma group_field_kept_all (later : list (option User)) (st : Instance * Channel)
    (g : nat) :
  inv st → groupSubscription st.1 = Some g → g ∉ active st.2 →
  groupSubscription (foldl receive st later).1 = Some g ∧
  g ∉ active (foldl receive st later).2.
Proof.
  revert st. induction later as [|p later IH]; intros st Hst Hg Hno; [done|].
  simpl. destruct (group_field_kept st p g Hst Hg Hno) as [Hg' Hno'].
  apply IH; [by apply receive_inv|done|done].
Qed.

Lemma group_field_set (st : Instance * Channel) (next : User) :
  ∃ g, groupSubscription (receive st (Some next)).1 = Some g.
Proof.
  destruct st as [this ch]. unfold receive, componentWillReceiveProps.
  cbn [fst snd].
  set (mid := when_groups_changed (Some next) _ _).
  unfold when_no_group_subscription.
  destruct (groupSubscription mid.1) as [g|] eqn:Hg; simpl; eauto.
Qed.

Lemma group_field_ended (st : Instance * Channel) (g : nat) :
  groupSubscription st.1 = Some g →
  groupSubscription (receive st None).1 = Some g ∧ g ∉ active (receive st None).2.
Proof.
  destruct st as [this ch]. simpl. intros Hg.
  unfold receive, componentWillReceiveProps, when_signed_out, when_groups_changed.
  cbn [fst snd]. unfold when_no_group_subscription. cbn [fst snd].
  rewrite Hg. cbn [fst snd groupSubscription].
  split; [done|]. rewrite !active_call_if_set.
  intros [[_ Hne] _]. done.
Qed.

(** X12: the group subscription is opened at most once in the life of the
    component, and once the user has been there and gone, no group
    subscription is active any more, whatever props follow: it is not
    opened again when a user comes back. *)
Theorem group_subscription_not_reopened (user : option User)
    (before later : list (option User)) (signed_in : User) :
  let st := foldl receive (mounted user)
              (before ++ [Some signed_in; None] ++ later) in
  (∀ h userId, opened st.2 !! h = Some (GroupAddedTopic userId) → h ∉ active st.2) ∧
  (∀ h h' userId userId',
     opened st.2 !! h = Some (GroupAddedTopic userId) →
     opened st.2 !! h' = Some (GroupAddedTopic userId') → h = h').
Proof.
  intros st.
  pose proof (received_inv (before ++ [Some signed_in; None] ++ later)
                (mounted user) (mounted_inv user)) as Hinv.
  fold st in Hinv. destruct Hinv as ((_ & _ & _ & _ & Honce) & _ & _).
  split.
  - intros h userId Hh. pose proof (Honce h userId Hh) as Hfield.
    unfold st in *. rewrite !foldl_app in *. simpl in *.
    set (st0 := foldl receive (mounted user) before) in *.
    assert (Hinv0 : inv st0) by apply received_inv, mounted_inv.
    destruct (group_field_set st0 signed_in) as [g Hg].
    destruct (group_field_ended _ g Hg) as [Hg' Hno].
    destruct (group_field_kept_all later
                (receive (receive st0 (Some signed_in)) None) g)
      as [Hg'' Hno'']; [|done|done|].
    { by do 2 apply receive_inv. }
    rewrite Hg'' in Hfield. by injection Hfield as <-.
  - intros h h' u u' Hh Hh'.
    pose proof (Honce h u Hh). pose proof (Honce h' u' Hh'). congruence.
Qed.
End AppTheorems.

Module AppRenewal.
Import AppWithNavigationState AppFacts AppInvariant.

Lemma third_step_frame (next : option User) (this : Instance) (ch : Channel) :
  let st := when_no_group_subscription next this ch in
  messagesSubscription st.1 = messagesSubscription this ∧
  (∀ h t, opened ch !! h = Some t → opened st.2 !! h = Some t) ∧
  (∀ h, h ∈ active ch → h ∈ active st.2) ∧
  (∀ h, h ∈ active st.2 → h ∈ active ch ∨ h = length (opened ch)) ∧
  (∀ h groupIds, opened st.2 !! h = Some (MessageAddedTopic groupIds) →
     opened ch !! h = Some (MessageAddedTopic groupIds)).
Proof.
  unfold when_no_group_subscription.
  destruct (groupSubscription this); [simpl; by eauto 10|].
  destruct next as [next|]; [|simpl; by eauto 10]. simpl.
  split; [done|]. split; [|split; [|split]].
  - intros h t Ht. rewrite lookup_app_l; [done|]. by eapply lookup_lt_Some.
  - intros h Hh. apply elem_of_union. by right.
  - intros h Hh. apply elem_of_union in Hh as [Hh|Hh]; [|by left].
    right. by apply elem_of_singleton in Hh.
  - intros h groupIds Ht.
    destruct (decide (h < length (opened ch))%nat) as [Hlt|Hge].
    + by rewrite lookup_app_l in Ht.
    + rewrite lookup_app_r in Ht by lia.
      destruct (h - length (opened ch))%nat; [done|]. simpl in Ht.
      by rewrite lookup_nil in Ht.
Qed.

(** X13: when new props bring a user with at least one group, and there
    was no user before or the user had a different number of groups, the
    message subscription is renewed: the function stored before has been
    called, and the stored subscription is active and listens to exactly
    the ids of the new user's groups. *)
Theorem messages_subscription_renewed (user : option User)
    (history : list (option User)) (next : User) :
  let st := foldl receive (mounted user) history in
  let st' := receive st (Some next) in
  match props_user st.1 with
  | None => True
  | Some current => length (usr_groups next) ≠ length (usr_groups current)
  end →
  usr_groups next ≠ [] →
  (∃ h, messagesSubscription st'.1 = Some h ∧ h ∈ active st'.2 ∧
        opened st'.2 !! h = Some (MessageAddedTopic (ids (usr_groups next)))) ∧
  (∀ h0, messagesSubscription st.1 = Some h0 → h0 ∉ active st'.2).
Proof.
  intros st st' Hchanged Hgroups.
  assert (Hinv : inv st) by apply received_inv, mounted_inv.
  destruct st as [this ch] eqn:Hst. simpl in Hchanged.
  destruct Hinv as ((Hm & _ & _ & _ & _) & _ & _). simpl in Hm.
  unfold st', receive, componentWillReceiveProps. cbn [fst snd].
  change (when_signed_out (Some next) this ch) with (this, ch). cbn [fst snd].
  assert (Hsecond : when_groups_changed (Some next) this ch =
            ({| props_user := props_user this;
                groupSubscription := groupSubscription this;
                messagesSubscription :=
                  Some (length (opened (call_if_set (messagesSubscription this) ch))) |},
             (subscribeToMessages next (call_if_set (messagesSubscription this) ch)).2)).
  { unfold when_groups_changed.
    replace (match props_user this with None => true | Some _ => _ end) with true.
    - by rewrite (proj2 (truthy_length (usr_groups next)) Hgroups).
    - destruct (props_user this) as [current|]; [|done].
      symmetry. apply negb_true_iff, Z.eqb_neq. lia. }
  rewrite Hsecond. cbn [fst snd].
  set (i := {| props_user := props_user this;
               groupSubscription := groupSubscription this;
               messagesSubscription := _ |}).
  set (c := (subscribeToMessages next _).2).
  destruct (third_step_frame (Some next) i c) as (Hmsg & Hkeep & Hact & Hact' & _).
  cbn [fst snd messagesSubscription]. rewrite Hmsg. split.
  - eexists. split; [reflexivity|]. rewrite opened_call_if_set. split.
    + apply Hact. unfold c. simpl. rewrite opened_call_if_set.
      apply elem_of_union. left. by apply elem_of_singleton.
    + apply Hkeep. unfold c. simpl. rewrite opened_call_if_set.
      by rewrite lookup_app_r, Nat.sub_diag.
  - intros h0 Hh0 Hin. destruct (Hm h0 Hh0) as [x Hx].
    pose proof (lookup_lt_Some _ _ _ Hx) as Hlt.
    apply Hact' in Hin as [Hin| ->].
    + unfold c in Hin. simpl in Hin. rewrite opened_call_if_set in Hin.
      apply elem_of_union in Hin as [Hin|Hin].
      * apply elem_of_singleton in Hin. lia.
      * apply active_call_if_set in Hin as [_ Hne]. done.
    + unfold c in Hlt. simpl in Hlt.
      rewrite length_app, opened_call_if_set in Hlt. simpl in Hlt. lia.
Qed.

(** X14: when new props bring a user with as many groups as the user
    before, the message subscription is left as it is, even when the
    groups are not the same ones: the stored function and the active
    message subscriptions with the group ids they listen to are
    unchanged. *)
Theorem messages_subscription_kept (user : option User)
    (history : list (option User)) (current next : User) :
  let st := foldl receive (mounted user) history in
  let st' := receive st (Some next) in
  props_user st.1 = Some current →
  length (usr_groups next) = length (usr_groups current) →
  messagesSubscription st'.1 = messagesSubscription st.1 ∧
  (∀ h groupIds, opened st'.2 !! h = Some (MessageAddedTopic groupIds) →
     opened st.2 !! h = Some (MessageAddedTopic groupIds)) ∧
  (∀ h groupIds, opened st.2 !! h = Some (MessageAddedTopic groupIds) →
     (h ∈ active st'.2 ↔ h ∈ active st.2)).
Proof.
  intros st st' Hcur Hlen.
  destruct st as [this ch] eqn:Hst. simpl in Hcur.
  unfold st', receive, componentWillReceiveProps. cbn [fst snd].
  change (when_signed_out (Some next) this ch) with (this, ch). cbn [fst snd].
  assert (Hsecond : when_groups_changed (Some next) this ch = (this, ch)).
  { unfold when_groups_changed. rewrite Hcur, Hlen. by rewrite Z.eqb_refl. }
  rewrite Hsecond. cbn [fst snd].
  destruct (third_step_frame (Some next) this ch)
    as (Hmsg & Hkeep & Hact & Hact' & Hold).
  cbn [fst snd messagesSubscription]. split; [done|]. split; [done|].
  intros h groupIds Ht. split; [|by apply Hact].
  intros Hin. apply Hact' in Hin as [Hin| ->]; [done|].
  apply lookup_lt_Some in Ht. lia.
Qed.

Lemma messages_subscription_renewed_witness :
  ∃ h, messagesSubscription
         (receive (foldl receive (mounted None) [Some (member_of [1])])
                  (Some (member_of [2; 3]))).1 = Some h ∧
       h ∈ active (receive (foldl receive (mounted None) [Some (member_of [1])])
                           (Some (member_of [2; 3]))).2 ∧
       opened (receive (foldl receive (mounted None) [Some (member_of [1])])
                       (Some (member_of [2; 3]))).2 !! h =
         Some (MessageAddedTopic [Some 2; Some 3]).
Proof.
  destruct (messages_subscription_renewed None [Some (member_of [1])]
              (member_of [2; 3])) as [Hnew _].
  - cbn. lia.
  - discriminate.
  - exact Hnew.
Defined.

Lemma messages_subscription_kept_witness :
  messagesSubscription
    (receive (foldl receive (mounted None) [Some (member_of [1])])
             (Some (member_of [2]))).1 = Some 0%nat ∧
  opened (receive (foldl receive (mounted None) [Some (member_of [1])])
                  (Some (member_of [2]))).2 !! 0%nat =
    Some (MessageAddedTopic [Some 1]) ∧
  (0%nat ∈ active (receive (foldl receive (mounted None) [Some (member_of [1])])
                           (Some (member_of [2]))).2).
Proof.
  destruct (messages_subscription_kept None [Some (member_of [1])]
              (member_of [1]) (member_of [2])) as (Hfield & _ & Hactive).
  - reflexivity.
  - reflexivity.
  - split; [rewrite Hfield; reflexivity|]. split; [reflexivity|].
    apply (Hactive 0%nat [Some 1]); [reflexivity|].
    cbn. apply elem_of_union. right. apply elem_of_union. left.
    by apply elem_of_singleton.
Defined.
End AppRenewal.

(** X15: the duplicate check only looks at what is cached, so a
    [groupAdded] event for a group that the [update] of [deleteGroup] or
    [leaveGroup] has just removed puts the group back: it is appended
    after the groups that were kept. *)
Theorem removed_group_added_back (s : Store) (g : Group) (data : UserResult) :
  userQuery s !! 1 = Some data →
  userQuery (run [DeleteGroupPatch (grp_id g); GroupAdded g] s) !! 1 =
    Some (set_groups data
            (filter (λ x, grp_id x ≠ grp_id g) (usr_groups (user data)) ++ [g])) ∧
  run [LeaveGroupPatch (grp_id g); GroupAdded g] s =
    run [DeleteGroupPatch (grp_id g); GroupAdded g] s.
Proof.
  intros Hdata. split; [|done].
  change (run [DeleteGroupPatch (grp_id g); GroupAdded g] s)
    with (step (exec (removeGroup_update (grp_id g)) s) (GroupAdded g)).
  rewrite (exec_removeGroup _ _ _ Hdata).
  set (kept := filter (λ x, strict_eq (grp_id g) (grp_id x) = false)
                 (usr_groups (user data))).
  assert (Hkept : kept = filter (λ x, grp_id x ≠ grp_id g) (usr_groups (user data))).
  { apply list_filter_iff. intros x. rewrite strict_eq_false.
    split; congruence. }
  assert (Hfresh : isDuplicateDocument g kept = false).
  { apply isDuplicateDocument_false. right. intros Hin.
    apply list_elem_of_fmap in Hin as (x & Hx & Hin).
    apply list_elem_of_filter in Hin as [Hne _].
    apply strict_eq_false in Hne. by apply Hne. }
  simpl. unfold apply_updateQuery. simpl. rewrite lookup_insert_eq.
  unfold groupAdded_updateQuery. rewrite usr_groups_set_groups, Hfresh.
  unfold exec. simpl. rewrite lookup_insert_eq. by rewrite Hkept.
Qed.

Lemma removed_group_added_back_witness :
  userQuery (run [DeleteGroupPatch (Some 1); GroupAdded friends] sample_store) !! 1 =
    Some cached_user.
Proof.
  destruct (removed_group_added_back sample_store friends cached_user eq_refl)
    as [Hback _].
  exact (eq_trans Hback eq_refl).
Defined.

Lemma group_subscription_not_reopened_witness :
  AppWithNavigationState.props_user
    (foldl AppWithNavigationState.receive (AppWithNavigationState.mounted None)
       [Some (member_of [1]); None; Some (member_of [1])]).1 =
    Some (member_of [1]) ∧
  AppWithNavigationState.opened
    (foldl AppWithNavigationState.receive (AppWithNavigationState.mounted None)
       [Some (member_of [1]); None; Some (member_of [1])]).2 !! 1%nat =
    Some (AppWithNavigationState.GroupAddedTopic (Some 1)) ∧
  (1%nat ∉ AppWithNavigationState.active
     (foldl AppWithNavigationState.receive (AppWithNavigationState.mounted None)
        [Some (member_of [1]); None; Some (member_of [1])]).2).
Proof.
  split; [reflexivity|]. split; [reflexivity|].
  destruct (AppTheorems.group_subscription_not_reopened None []
              [Some (member_of [1])] (member_of [1])) as [Hnot _].
  apply (Hnot 1%nat (Some 1)). reflexivity.
Defined.
